(** * TREN: the Turkish-English code-switching annotation pipeline

    A shallow embedding of [cs_pipeline.py]: the suffix morphology parser,
    the mixed-token detectors, the per-token classifier, the sentence
    aggregator and the line-by-line orchestrator, followed by the
    properties proved about them.

    Text is a sequence of Unicode code points, as a Python [str] is: the
    Turkish letters of the suffix tables are single characters, and
    [len], slicing and [endswith] count code points.  Labels, feature
    tags and language codes are plain ASCII constants and are kept as
    [string].  Confidence scores and vote weights are IEEE binary64
    numbers, as Python's [float]. *)

From Stdlib Require Import ZArith NArith List Bool Ascii String.
From Stdlib Require Import Uint63 PrimFloat SpecFloat FloatOps FloatAxioms.
From stdpp Require Import gmap strings list pretty.

Set Warnings "-inexact-float".
Local Open Scope string_scope.
Local Open Scope list_scope.

(** ** Text *)

Abbreviation char := N.
Abbreviation str := (list N).

(** Decoding of the UTF-8 bytes of a literal into code points. *)
Fixpoint utf8 (bs : list N) : str :=
  match bs with
  | [] => []
  | b0 :: r0 =>
    if (b0 <? 128)%N then b0 :: utf8 r0
    else if (b0 <? 224)%N then
      match r0 with
      | b1 :: r1 => ((b0 - 192) * 64 + (b1 - 128))%N :: utf8 r1
      | [] => [b0]
      end
    else if (b0 <? 240)%N then
      match r0 with
      | b1 :: b2 :: r2 =>
        ((b0 - 224) * 4096 + (b1 - 128) * 64 + (b2 - 128))%N :: utf8 r2
      | _ => [b0]
      end
    else
      match r0 with
      | b1 :: b2 :: b3 :: r3 =>
        ((b0 - 240) * 262144 + (b1 - 128) * 4096 + (b2 - 128) * 64
         + (b3 - 128))%N :: utf8 r3
      | _ => [b0]
      end
  end.

Definition u (s : string) : str :=
  utf8 (map N_of_ascii (list_ascii_of_string s)).

(** [s.endswith(e)] *)
Definition endswith (s e : str) : bool := bool_decide (e `suffix_of` s).

(** [s[:-k]] and [s[-k:]]; Python reads [-0] as [0]. *)
Definition slice_to_neg (k : nat) (s : str) : str :=
  match k with
  | O => []
  | _ => take (length s - k) s
  end.

Definition slice_from_neg (k : nat) (s : str) : str :=
  match k with
  | O => s
  | _ => drop (length s - k) s
  end.

(** Truth value of a string, a list or a set: non-empty. *)
Definition truthy {A} (l : list A) : bool :=
  match l with [] => false | _ => true end.

Definition set_truthy (X : gset string) : bool := negb (bool_decide (X = ∅)).

(** ** Suffix tables

    Each dict literal is an association list in the order of the source,
    which is the order [dict.items()] yields. *)

Definition EN_CONTRACTIONS : gset str :=
  list_to_set [u "s"; u "re"; u "ve"; u "m"; u "ll"; u "d"; u "t"].

Definition DERIV_SUFFIXES : list (str * (string * string)) :=
  [ (u "lık", ("Deriv=LIK", "DerivPOS=NOUN"));
    (u "lik", ("Deriv=LIK", "DerivPOS=NOUN"));
    (u "luk", ("Deriv=LIK", "DerivPOS=NOUN"));
    (u "lük", ("Deriv=LIK", "DerivPOS=NOUN"));
    (u "sal", ("Deriv=SAL", "DerivPOS=ADJ"));
    (u "sel", ("Deriv=SAL", "DerivPOS=ADJ"));
    (u "li",  ("Deriv=LI",  "DerivPOS=ADJ"));
    (u "lı",  ("Deriv=LI",  "DerivPOS=ADJ"));
    (u "lu",  ("Deriv=LI",  "DerivPOS=ADJ"));
    (u "lü",  ("Deriv=LI",  "DerivPOS=ADJ"));
    (u "siz", ("Deriv=SIZ", "DerivPOS=ADJ"));
    (u "suz", ("Deriv=SIZ", "DerivPOS=ADJ"));
    (u "süz", ("Deriv=SIZ", "DerivPOS=ADJ"));
    (u "sız", ("Deriv=SIZ", "DerivPOS=ADJ"));
    (u "ci",  ("Deriv=CI",  "DerivPOS=NOUN"));
    (u "cı",  ("Deriv=CI",  "DerivPOS=NOUN"));
    (u "cu",  ("Deriv=CI",  "DerivPOS=NOUN"));
    (u "cü",  ("Deriv=CI",  "DerivPOS=NOUN"));
    (u "çı",  ("Deriv=CI",  "DerivPOS=NOUN"));
    (u "çi",  ("Deriv=CI",  "DerivPOS=NOUN"));
    (u "çu",  ("Deriv=CI",  "DerivPOS=NOUN"));
    (u "çü",  ("Deriv=CI",  "DerivPOS=NOUN")) ].

Definition PLUR : list (str * string) :=
  [ (u "lar", "Number=Plur"); (u "ler", "Number=Plur") ].

Definition P1pl : list string :=
  ["Poss=Yes"; "Person[psor]=1"; "Number[psor]=Plur"].
Definition P2pl : list string :=
  ["Poss=Yes"; "Person[psor]=2"; "Number[psor]=Plur"].
Definition P3pl : list string :=
  ["Poss=Yes"; "Person[psor]=3"; "Number[psor]=Plur"].
Definition P1sg : list string :=
  ["Poss=Yes"; "Person[psor]=1"; "Number[psor]=Sing"].
Definition P2sg : list string :=
  ["Poss=Yes"; "Person[psor]=2"; "Number[psor]=Sing"].
Definition P3sg : list string :=
  ["Poss=Yes"; "Person[psor]=3"; "Number[psor]=Sing"].

Definition POSS_LONG : list (str * list string) :=
  [ (u "ımız", P1pl); (u "imiz", P1pl); (u "umuz", P1pl); (u "ümüz", P1pl);
    (u "ınız", P2pl); (u "iniz", P2pl); (u "unuz", P2pl); (u "ünüz", P2pl);
    (u "ları", P3pl); (u "leri", P3pl) ].

Definition POSS_SHORT : list (str * list string) :=
  [ (u "ım", P1sg); (u "im", P1sg); (u "um", P1sg); (u "üm", P1sg);
    (u "ın", P2sg); (u "in", P2sg); (u "un", P2sg); (u "ün", P2sg);
    (u "sı", P3sg); (u "si", P3sg); (u "su", P3sg); (u "sü", P3sg);
    (u "m",  P1sg); (u "n",  P2sg) ].

Definition CASE_ENDINGS : list (str * string) :=
  [ (u "ndan", "Case=Abl"); (u "nden", "Case=Abl");
    (u "dan", "Case=Abl"); (u "den", "Case=Abl");
    (u "tan", "Case=Abl"); (u "ten", "Case=Abl");
    (u "nda", "Case=Loc"); (u "nde", "Case=Loc");
    (u "da",  "Case=Loc"); (u "de",  "Case=Loc");
    (u "ta",  "Case=Loc"); (u "te",  "Case=Loc");
    (u "nın", "Case=Gen"); (u "nin", "Case=Gen");
    (u "nun", "Case=Gen"); (u "nün", "Case=Gen");
    (u "ın",  "Case=Gen"); (u "in",  "Case=Gen");
    (u "un",  "Case=Gen"); (u "ün",  "Case=Gen");
    (u "yla", "Case=Ins"); (u "yle", "Case=Ins");
    (u "la",  "Case=Ins"); (u "le",  "Case=Ins");
    (u "ca",  "Case=Equ"); (u "ce",  "Case=Equ");
    (u "yı",  "Case=Acc"); (u "yi",  "Case=Acc");
    (u "yu",  "Case=Acc"); (u "yü",  "Case=Acc");
    (u "ı",   "Case=Acc"); (u "i",   "Case=Acc");
    (u "u",   "Case=Acc"); (u "ü",   "Case=Acc");
    (u "ya",  "Case=Dat"); (u "ye",  "Case=Dat");
    (u "a",   "Case=Dat"); (u "e",   "Case=Dat") ].

Definition BUFFER_N_ACC : list (str * string) :=
  [ (u "nı", "Case=Acc"); (u "ni", "Case=Acc");
    (u "nu", "Case=Acc"); (u "nü", "Case=Acc") ].

Definition BUFFER_N_DAT : list (str * string) :=
  [ (u "na", "Case=Dat"); (u "ne", "Case=Dat") ].

(** [sorted(items, key=lambda x: -len(x[0]))]: Python's sort is stable, so
    entries of equal length keep the order of the table. *)
Fixpoint insert_by_len {A} (x : str * A) (l : list (str * A))
  : list (str * A) :=
  match l with
  | [] => [x]
  | y :: l' =>
    if (length y.1 <? length x.1)%nat then x :: l
    else y :: insert_by_len x l'
  end.

Definition sorted_items {A} (items : list (str * A)) : list (str * A) :=
  fold_left (fun acc x => insert_by_len x acc) items [].

(** The [for end, feat in ...: if s.endswith(end): ...; break] scan. *)
Definition first_match {A} (table : list (str * A)) (s : str)
  : option (str * A) :=
  List.find (fun it => endswith s it.1) table.

(** ** Built-ins taken at their interface

    [str.lower()] and the regular-expression classes [\w] and [\d] are
    defined by the Unicode character database, which is no part of the
    repository.  They are parameters of the development; nothing below
    assumes anything about them unless a statement says so. *)
Class Unicode := {
  lower : str -> str;
  is_word : char -> bool;
  is_digit : char -> bool;
}.

(** ** Suffix Morphology Parser *)

(** The loop variables of [_parse_tr_suffixes_full]. *)
Record pstate := PState {
  cur : str;
  segments_rev : list str;
  ud : gset string;
  deriv : gset string;
  amb : gset string;
}.

(** [segments_rev.append(s[-len(end):]); ud |= feats; s = s[:-len(end)]] *)
Definition strip_ud (st : pstate) (e : str) (feats : list string) : pstate :=
  {| cur := slice_to_neg (length e) (cur st);
     segments_rev := segments_rev st ++ [slice_from_neg (length e) (cur st)];
     ud := ud st ∪ list_to_set feats;
     deriv := deriv st;
     amb := amb st |}.

(** [segments_rev.append(end); amb.add("Amb=P3sg_or_Acc"); s = s[:-1]] *)
Definition strip_amb (st : pstate) (e : str) : pstate :=
  {| cur := slice_to_neg 1 (cur st);
     segments_rev := segments_rev st ++ [e];
     ud := ud st;
     deriv := deriv st;
     amb := amb st ∪ {["Amb=P3sg_or_Acc"]} |}.

(** [segments_rev.append(end); ud.add(feat); s = s[:-len(end)]] *)
Definition strip_plur (st : pstate) (e : str) (feat : string) : pstate :=
  {| cur := slice_to_neg (length e) (cur st);
     segments_rev := segments_rev st ++ [e];
     ud := ud st ∪ {[feat]};
     deriv := deriv st;
     amb := amb st |}.

(** [segments_rev.append(end); deriv.add(dtag); deriv.add(dpos);
    s = s[:-len(end)]] *)
Definition strip_deriv (st : pstate) (e : str) (dtag dpos : string)
  : pstate :=
  {| cur := slice_to_neg (length e) (cur st);
     segments_rev := segments_rev st ++ [e];
     ud := ud st;
     deriv := deriv st ∪ {[dtag]} ∪ {[dpos]};
     amb := amb st |}.

(** [segments_rev.append(s); deriv.add("Unparsed=Leftover")] *)
Definition keep_leftover (st : pstate) : pstate :=
  {| cur := cur st;
     segments_rev := segments_rev st ++ [cur st];
     ud := ud st;
     deriv := deriv st ∪ {["Unparsed=Leftover"]};
     amb := amb st |}.

(** [while progressed and s: progressed = False; ...]: [body] is one turn
    of the loop and returns the new state when the turn progressed.  A
    turn that progresses removes at least one character of [s], so the
    length of [s] on entry bounds the number of turns; [fuel] counts them
    down, and [while_progress_fuel] shows that more fuel changes
    nothing. *)
Fixpoint while_progress (body : pstate -> option pstate) (fuel : nat)
  (st : pstate) : pstate :=
  match fuel with
  | O => st
  | S fuel' =>
    if truthy (cur st) then
      match body st with
      | Some st' => while_progress body fuel' st'
      | None => st
      end
    else st
  end.

(** Buffer-n endings first, then the case endings. *)
Definition case_body (st : pstate) : option pstate :=
  match first_match (sorted_items (BUFFER_N_ACC ++ BUFFER_N_DAT))
                    (cur st) with
  | Some (e, feat) => Some (strip_ud st e [feat])
  | None =>
    match first_match (sorted_items CASE_ENDINGS) (cur st) with
    | Some (e, feat) => Some (strip_ud st e [feat])
    | None => None
    end
  end.

Definition BARE_VOWELS : list str := [u "ı"; u "i"; u "u"; u "ü"].

(** Long possessives, then short ones, then a bare vowel. *)
Definition poss_body (st : pstate) : option pstate :=
  match first_match (sorted_items POSS_LONG) (cur st) with
  | Some (e, feats) => Some (strip_ud st e feats)
  | None =>
    match first_match (sorted_items POSS_SHORT) (cur st) with
    | Some (e, feats) => Some (strip_ud st e feats)
    | None =>
      match List.find (endswith (cur st)) BARE_VOWELS with
      | Some e => Some (strip_amb st e)
      | None => None
      end
    end
  end.

(** The plural check runs once. *)
Definition plur_step (st : pstate) : pstate :=
  match first_match (sorted_items PLUR) (cur st) with
  | Some (e, feat) => strip_plur st e feat
  | None => st
  end.

Definition deriv_body (st : pstate) : option pstate :=
  match first_match (sorted_items DERIV_SUFFIXES) (cur st) with
  | Some (e, (dtag, dpos)) => Some (strip_deriv st e dtag dpos)
  | None => None
  end.

(** The passes on an already lower-cased suffix. *)
Definition parse_passes (s : str) : pstate :=
  let st0 := PState s [] ∅ ∅ ∅ in
  let st1 := while_progress case_body (length (cur st0)) st0 in
  let st2 := while_progress poss_body (length (cur st1)) st1 in
  let st3 := plur_step st2 in
  let st4 := while_progress deriv_body (length (cur st3)) st3 in
  if truthy (cur st4) then keep_leftover st4 else st4.

Definition _parse_tr_suffixes_full `{Unicode} (suffix : str)
  : list str * gset string * gset string * gset string :=
  let st := parse_passes (lower suffix) in
  (rev (segments_rev st), ud st, deriv st, amb st).

(** [bool(ud_feats or deriv or amb)] *)
Definition has_feats (p : list str * gset string * gset string * gset string)
  : bool :=
  let '(_, ud_feats, deriv, amb) := p in
  set_truthy ud_feats || set_truthy deriv || set_truthy amb.

(** ** Regular expressions of the module

    Each pattern is matched by a hand-written recogniser of the same
    language; none of them needs backtracking. *)

(** Python's white space ([str.strip], [\s]). *)
Definition is_space (c : char) : bool :=
  ((9 <=? c) && (c <=? 13) || (28 <=? c) && (c <=? 32)
   || (c =? 133) || (c =? 160) || (c =? 5760)
   || (8192 <=? c) && (c <=? 8202) || (c =? 8232) || (c =? 8233)
   || (c =? 8239) || (c =? 8287) || (c =? 12288))%N.

(** The apostrophe class ['’]: U+0027 and U+2019. *)
Definition is_apos (c : char) : bool := ((c =? 39) || (c =? 8217))%N.

(** A lower-case ASCII letter of a pattern against [x] under
    [re.IGNORECASE]: the letter, its capital, and for [s] the long s
    U+017F, which the [re] module folds to it. *)
Definition ci (letter x : char) : bool :=
  ((x =? letter) || (x =? letter - 32)
   || (letter =? 115) && (x =? 383))%N.

Section Regex.
Context `{Unicode}.

(** [URL_RE.match(tok)]: [(https?://\S+|www\.\S+)] at the start. *)
Definition URL_RE_match (tok : str) : bool :=
  match tok with
  | h :: t1 :: t2 :: p :: r =>
    ci 104 h && ci 116 t1 && ci 116 t2 && ci 112 p &&
    match (match r with
           | s :: r' => if ci 115 s then r' else r
           | [] => r
           end) with
    | 58 :: 47 :: 47 :: x :: _ => negb (is_space x)
    | _ => false
    end
  | _ => false
  end%N
  ||
  match tok with
  | w1 :: w2 :: w3 :: 46 :: x :: _ =>
    ci 119 w1 && ci 119 w2 && ci 119 w3 && negb (is_space x)
  | _ => false
  end%N.

(** [MENTION_RE.match(tok)]: [@\w+] at the start. *)
Definition MENTION_RE_match (tok : str) : bool :=
  match tok with
  | 64 :: x :: _ => is_word x
  | _ => false
  end%N.

(** [HASHTAG_RE.match(tok)]: [#\w+] at the start. *)
Definition HASHTAG_RE_match (tok : str) : bool :=
  match tok with
  | 35 :: x :: _ => is_word x
  | _ => false
  end%N.

(** The separators [.,:/-]. *)
Definition is_num_sep (c : char) : bool :=
  ((c =? 46) || (c =? 44) || (c =? 58) || (c =? 47) || (c =? 45))%N.

(** [NUMERIC_RE.match(tok)]: [^\d+([.,:/-]\d+)*$].  [need_digit] holds at
    the start and after a separator; [$] also accepts one final line
    feed. *)
Fixpoint numeric_from (need_digit : bool) (s : str) : bool :=
  match s with
  | [] => negb need_digit
  | c :: r =>
    if is_digit c then numeric_from false r
    else if need_digit then false
    else if is_num_sep c then numeric_from true r
    else (c =? 10)%N && negb (truthy r)
  end.

Definition NUMERIC_RE_match (tok : str) : bool := numeric_from true tok.

(** [EMOJI_RE.search(tok)]: a code point in U+10000..U+10FFFF. *)
Definition EMOJI_RE_search (tok : str) : bool :=
  existsb (fun c => (65536 <=? c) && (c <=? 1114111))%N tok.

(** [re.fullmatch(r"[\W_]+", tok)] *)
Definition nonword_fullmatch (tok : str) : bool :=
  truthy tok && forallb (fun c => negb (is_word c) || (c =? 95)%N) tok.

Definition is_other_token (tok : str) : bool :=
  if negb (truthy tok) then true
  else if URL_RE_match tok || MENTION_RE_match tok || HASHTAG_RE_match tok
  then true
  else if NUMERIC_RE_match tok then true
  else if EMOJI_RE_search tok then true
  else if nonword_fullmatch tok then true
  else false.

(** [re.sub(r"[^\w’']+", "", token)] *)
Definition clean_token (token : str) : str :=
  List.filter (fun c => is_word c || is_apos c) token.

(** The longest run of [\w] at the head of [s], and the rest. *)
Fixpoint span_word (s : str) : str * str :=
  match s with
  | [] => ([], [])
  | c :: r =>
    if is_word c then let '(w, t) := span_word r in (c :: w, t)
    else ([], s)
  end.

(** [\w+['’]?\w*] at a position that holds a word character: all three
    parts are greedy and the last two may be empty. *)
Definition word_token (s : str) : str * str :=
  let '(w1, r1) := span_word s in
  let '(ap, r2) :=
    match r1 with
    | c :: r => if is_apos c then ([c], r) else ([], r1)
    | [] => ([], r1)
    end in
  let '(w2, r3) := span_word r2 in
  (w1 ++ ap ++ w2, r3).

(** [re.findall] of [\w+['’]?\w*|\w+] and, when [lone_apos], of the third
    alternative [['’]] as well: the matches from left to right, none
    overlapping.  The second alternative never gets its turn, the first
    one matches wherever it would.  Every step consumes a character;
    [fuel] bounds the steps. *)
Fixpoint findall_tokens (lone_apos : bool) (fuel : nat) (s : str)
  : list str :=
  match fuel with
  | O => []
  | S fuel' =>
    match s with
    | [] => []
    | c :: r =>
      if is_word c then
        let '(t, rest) := word_token s in
        t :: findall_tokens lone_apos fuel' rest
      else if lone_apos && is_apos c then
        [c] :: findall_tokens lone_apos fuel' r
      else findall_tokens lone_apos fuel' r
    end
  end.

Definition tokenize (text : str) : list str :=
  findall_tokens true (length text) text.

End Regex.

(** ** Configuration *)

(** The keys of [DEFAULTS], each with the type of its default value. *)
Record Config := {
  FEATURE_LANGUAGE_PER_ITEM : bool;
  FEATURE_MATRIX_LANGUAGE : bool;
  FEATURE_EMBEDDED_LANGUAGE : bool;
  FEATURE_SENTENCE_ID : bool;
  NER_ENABLED : bool;
  FT_EN_MIN : float;
  FT_TR_MIN : float;
  MIXED_STRICT : bool;
  EMIT_MIXED_SUFFIX : bool;
  MIXED_TR_WEIGHT : float;
  MIXED_EN_WEIGHT : float;
  EMBED_MIN_COUNT : Z;
  EMBED_MIN_RATIO : float;
}.

Definition DEFAULTS : Config := {|
  FEATURE_LANGUAGE_PER_ITEM := true;
  FEATURE_MATRIX_LANGUAGE := true;
  FEATURE_EMBEDDED_LANGUAGE := true;
  FEATURE_SENTENCE_ID := true;
  NER_ENABLED := true;
  FT_EN_MIN := 0.80;
  FT_TR_MIN := 0.80;
  MIXED_STRICT := true;
  EMIT_MIXED_SUFFIX := false;
  MIXED_TR_WEIGHT := 0.6;
  MIXED_EN_WEIGHT := 0.4;
  EMBED_MIN_COUNT := 1;
  EMBED_MIN_RATIO := 0.20;
|}.

(** A [user_cfg] dict: the keys it sets. *)
Record UserCfg := {
  set_FEATURE_LANGUAGE_PER_ITEM : option bool;
  set_FEATURE_MATRIX_LANGUAGE : option bool;
  set_FEATURE_EMBEDDED_LANGUAGE : option bool;
  set_FEATURE_SENTENCE_ID : option bool;
  set_NER_ENABLED : option bool;
  set_FT_EN_MIN : option float;
  set_FT_TR_MIN : option float;
  set_MIXED_STRICT : option bool;
  set_EMIT_MIXED_SUFFIX : option bool;
  set_MIXED_TR_WEIGHT : option float;
  set_MIXED_EN_WEIGHT : option float;
  set_EMBED_MIN_COUNT : option Z;
  set_EMBED_MIN_RATIO : option float;
}.

(** [cfg.update(user_cfg)] *)
Definition cfg_update (cfg : Config) (user : UserCfg) : Config := {|
  FEATURE_LANGUAGE_PER_ITEM :=
    default (FEATURE_LANGUAGE_PER_ITEM cfg) (set_FEATURE_LANGUAGE_PER_ITEM user);
  FEATURE_MATRIX_LANGUAGE :=
    default (FEATURE_MATRIX_LANGUAGE cfg) (set_FEATURE_MATRIX_LANGUAGE user);
  FEATURE_EMBEDDED_LANGUAGE :=
    default (FEATURE_EMBEDDED_LANGUAGE cfg) (set_FEATURE_EMBEDDED_LANGUAGE user);
  FEATURE_SENTENCE_ID :=
    default (FEATURE_SENTENCE_ID cfg) (set_FEATURE_SENTENCE_ID user);
  NER_ENABLED := default (NER_ENABLED cfg) (set_NER_ENABLED user);
  FT_EN_MIN := default (FT_EN_MIN cfg) (set_FT_EN_MIN user);
  FT_TR_MIN := default (FT_TR_MIN cfg) (set_FT_TR_MIN user);
  MIXED_STRICT := default (MIXED_STRICT cfg) (set_MIXED_STRICT user);
  EMIT_MIXED_SUFFIX :=
    default (EMIT_MIXED_SUFFIX cfg) (set_EMIT_MIXED_SUFFIX user);
  MIXED_TR_WEIGHT := default (MIXED_TR_WEIGHT cfg) (set_MIXED_TR_WEIGHT user);
  MIXED_EN_WEIGHT := default (MIXED_EN_WEIGHT cfg) (set_MIXED_EN_WEIGHT user);
  EMBED_MIN_COUNT := default (EMBED_MIN_COUNT cfg) (set_EMBED_MIN_COUNT user);
  EMBED_MIN_RATIO := default (EMBED_MIN_RATIO cfg) (set_EMBED_MIN_RATIO user);
|}.

(** ** The annotator *)

(** The state [__init__] builds: the three frequency sets, the fastText
    wrapper [_ft_predict] (upper-cased language code and probability; its
    [lru_cache] does not change what it returns) and the Stanza pipeline
    [ner], read as the function from a line to the texts of [doc.ents]. *)
Record Annotator := {
  turkish_freq_top : gset str;
  turkish_freq_all : gset str;
  english_freq_words : gset str;
  _ft_predict : str -> string * float;
  ner : str -> list str;
}.

Section Pipeline.
Context `{Unicode}.
Variable self : Annotator.

Definition _choose_label (token_l : str) (cfg : Config) : string :=
  if bool_decide (token_l ∈ turkish_freq_top self) then "TR"
  else if bool_decide (token_l ∈ english_freq_words self) then "EN"
  else if bool_decide (token_l ∈ turkish_freq_all self) then "TR"
  else
    let '(lang, prob) := _ft_predict self token_l in
    if String.eqb lang "EN" && (FT_EN_MIN cfg <=? prob)%float then "EN"
    else if String.eqb lang "TR" && (FT_TR_MIN cfg <=? prob)%float then "TR"
    else "UID".

(** [re.split(r"[’']", token)]; [acc] is the part being read. *)
Fixpoint re_split_apos (acc : str) (s : str) : list str :=
  match s with
  | [] => [acc]
  | c :: r =>
    if is_apos c then acc :: re_split_apos [] r
    else re_split_apos (acc ++ [c]) r
  end.

(** [None] stands for the pair [(None, None)]. *)
Definition _split_mixed_apostrophe (token : str) : option (str * str) :=
  if existsb is_apos token then
    match re_split_apos [] token with
    | [base; suff] =>
      if truthy base && truthy suff then
        let sfx := lower suff in
        if bool_decide (sfx ∈ EN_CONTRACTIONS) || endswith sfx (u "n't")
        then None
        else Some (base, suff)
      else None
    | _ => None
    end
  else None.

(** The union of the keys of the seven tables.  The source builds a
    [set], whose iteration order is not fixed; entries of one length
    cannot both end the same token ([endswith_same_length]), so the order
    among them does not show ([detect_order_irrelevant]). *)
Definition all_suffixes : list str :=
  remove_dups (map fst CASE_ENDINGS ++ map fst PLUR ++ map fst POSS_LONG
               ++ map fst POSS_SHORT ++ map fst DERIV_SUFFIXES
               ++ map fst BUFFER_N_ACC ++ map fst BUFFER_N_DAT).

(** [sorted(all_suffixes, key=len, reverse=True)] *)
Definition sorted_suffixes : list str :=
  map fst (sorted_items (map (fun s => (s, tt)) all_suffixes)).

Definition VOWELS : str := u "aeıioöuü".

(** One turn of the loop over the candidate suffixes; [None] is
    [continue]. *)
Definition try_suffix (token tok_l : str) (cfg : Config) (suf : str)
  : option (str * str) :=
  if (length suf <? 2)%nat then None
  else if endswith tok_l suf then
    let base := slice_to_neg (length suf) token in
    let base_clean := lower (clean_token base) in
    if (length base_clean <? 2)%nat then None
    else
      let base_is_en :=
        if bool_decide (base_clean ∈ english_freq_words self) then true
        else
          let '(blang, bprob) := _ft_predict self base_clean in
          String.eqb blang "EN" && (FT_EN_MIN cfg <=? bprob)%float in
      if negb base_is_en then None
      else
        let last_is_vowel :=
          match last base_clean with
          | Some c => bool_decide (c ∈ VOWELS)
          | None => true
          end in
        if match suf with
           | c :: _ => ((c =? 121) || (c =? 110))%N
           | [] => false
           end && negb last_is_vowel
        then None
        else
          let has_ud := has_feats (_parse_tr_suffixes_full suf) in
          if negb has_ud then None
          else if MIXED_STRICT cfg
                  && bool_decide (base_clean ∈ turkish_freq_all self)
          then None
          else Some (base, slice_from_neg (length suf) token)
  else None.

Fixpoint scan_suffixes (token tok_l : str) (cfg : Config)
  (cands : list str) : option (str * str) :=
  match cands with
  | [] => None
  | suf :: rest =>
    match try_suffix token tok_l cfg suf with
    | Some r => Some r
    | None => scan_suffixes token tok_l cfg rest
    end
  end.

Definition _detect_mixed_no_apostrophe (token : str) (cfg : Config)
  : option (str * str) :=
  let tok_l := lower token in
  if bool_decide (tok_l ∈ turkish_freq_all self) then None
  else scan_suffixes token tok_l cfg sorted_suffixes.

(** [if base and suf] on a returned pair. *)
Definition both_truthy (r : option (str * str)) : bool :=
  match r with
  | Some (base, suf) => truthy base && truthy suf
  | None => false
  end.

(** [doc] is given by the texts of its entities. *)
Definition _build_ne_map (ents : list str) (line_tokens : list str)
  : gmap str string :=
  let ne_pieces : gset str :=
    list_to_set
      (List.filter truthy
         (concat (map (fun text => findall_tokens false (length text) text)
                      ents))) in
  fold_left
    (fun ne_map tok =>
       if bool_decide (tok ∈ ne_pieces) then <[tok := "NE"]> ne_map
       else ne_map)
    line_tokens ∅.

(** ** Sentence Aggregator *)

(** [float(n)] for the count [n] of a list's elements. *)
Definition py_float (n : Z) : float := PrimFloat.of_uint63 (Uint63.of_Z n).

(** [sum(1 for lb in labels if lb == tag)] *)
Definition sum_ones (tag : string) (labels : list string) : Z :=
  fold_left Z.add
    (map (fun _ => 1%Z) (List.filter (fun lb => String.eqb lb tag) labels))
    0%Z.

Definition score_tr (labels : list string) (cfg : Config) : float :=
  (py_float (sum_ones "TR" labels)
   + MIXED_TR_WEIGHT cfg * py_float (sum_ones "MIXED" labels))%float.

Definition score_en (labels : list string) (cfg : Config) : float :=
  (py_float (sum_ones "EN" labels)
   + MIXED_EN_WEIGHT cfg * py_float (sum_ones "MIXED" labels))%float.

Definition _decide_matrix_embed (labels : list string) (cfg : Config)
  : string * string :=
  let matrix :=
    if (score_en labels cfg <=? score_tr labels cfg)%float then "TR"
    else "EN" in
  let embed :=
    if String.eqb matrix "TR" then
      if existsb (fun lb => String.eqb lb "EN" || String.eqb lb "MIXED")
                 labels
      then "EN" else "-"
    else
      if existsb (fun lb => String.eqb lb "TR" || String.eqb lb "MIXED")
                 labels
      then "TR" else "-" in
  (matrix, embed).

(** ** Token Classifier and Orchestrator *)

(** The f-string [f"{tok}\t{label}"]. *)
Definition row (tok : str) (label : string) : str := tok ++ [9%N] ++ u label.

(** Lines 358-370 of [annotate]: the label the apostrophe split settles,
    if it settles one. *)
Definition apostrophe_path (tok : str) (cfg : Config) : option string :=
  match _split_mixed_apostrophe tok with
  | Some (base, suf) =>
    if truthy base && truthy suf then
      let base_l := lower (clean_token base) in
      let base_label := _choose_label base_l cfg in
      if String.eqb base_label "EN"
         && has_feats (_parse_tr_suffixes_full suf)
      then Some "MIXED"
      else if String.eqb base_label "TR" then Some "TR"
      else None
    else None
  | None => None
  end.

(** The body of [for tok in tokens]: the rows it appends to [sent_rows]
    and the labels it appends to [labels_in_sent]. *)
Definition token_step (ne_map : gmap str string) (cfg : Config) (tok : str)
  : list str * list string :=
  let tok_clean := clean_token tok in
  if is_other_token tok then
    if FEATURE_LANGUAGE_PER_ITEM cfg then ([row tok "OTHER"], [])
    else ([], [])
  else if bool_decide (is_Some (ne_map !! tok)) then
    if FEATURE_LANGUAGE_PER_ITEM cfg then ([row tok "NE"], ["NE"])
    else ([], [])
  else if negb (FEATURE_LANGUAGE_PER_ITEM cfg) then
    let tok_l := lower tok_clean in
    let label := _choose_label tok_l cfg in
    if match _split_mixed_apostrophe tok with
       | Some (base, suf) =>
         truthy base && truthy suf
         && String.eqb (_choose_label (lower (clean_token base)) cfg) "EN"
         && has_feats (_parse_tr_suffixes_full suf)
       | None => false
       end
    then ([], ["MIXED"])
    else if negb (String.eqb label "TR")
            && both_truthy (_detect_mixed_no_apostrophe tok cfg)
    then ([], ["MIXED"])
    else if String.eqb label "TR" || String.eqb label "EN"
    then ([], [label])
    else ([], [])
  else
    let tok_l := lower tok_clean in
    let label := _choose_label tok_l cfg in
    match apostrophe_path tok cfg with
    | Some lb => ([row tok lb], [lb])
    | None =>
      if negb (String.eqb label "TR")
         && both_truthy (_detect_mixed_no_apostrophe tok cfg)
      then ([row tok "MIXED"], ["MIXED"])
      else
        ([row tok label],
         if String.eqb label "TR" || String.eqb label "EN"
            || String.eqb label "MIXED"
         then [label] else [])
    end.

(** The label of the row a token gets when per-token rows are emitted. *)
Definition classify (ne_map : gmap str string) (cfg : Config) (tok : str)
  : string :=
  if is_other_token tok then "OTHER"
  else if bool_decide (is_Some (ne_map !! tok)) then "NE"
  else
    match apostrophe_path tok cfg with
    | Some lb => lb
    | None =>
      let label := _choose_label (lower (clean_token tok)) cfg in
      if negb (String.eqb label "TR")
         && both_truthy (_detect_mixed_no_apostrophe tok cfg)
      then "MIXED"
      else label
    end.

(** The token loop of one sentence. *)
Definition run_tokens (ne_map : gmap str string) (cfg : Config)
  (tokens : list str) : list str * list string :=
  fold_left
    (fun '(sent_rows, labels_in_sent) tok =>
       let '(rows, labels) := token_step ne_map cfg tok in
       (sent_rows ++ rows, labels_in_sent ++ labels))
    tokens ([], []).

Fixpoint dropwhile {A} (p : A -> bool) (l : list A) : list A :=
  match l with
  | [] => []
  | x :: r => if p x then dropwhile p r else l
  end.

(** [raw.rstrip("\n")] *)
Definition rstrip_nl (s : str) : str :=
  rev (dropwhile (fun c => (c =? 10)%N) (rev s)).

(** [line.strip()] *)
Definition strip (s : str) : str :=
  rev (dropwhile is_space (rev (dropwhile is_space s))).

(** [str.splitlines()]: the line boundaries are LF, CR, CR LF, VT, FF,
    FS, GS, RS, NEL, LS and PS; a final boundary opens no empty line. *)
Definition is_linebreak (c : char) : bool :=
  ((10 <=? c) && (c <=? 13) || (28 <=? c) && (c <=? 30) || (c =? 133)
   || (c =? 8232) || (c =? 8233))%N.

Fixpoint splitlines_from (acc : str) (s : str) : list str :=
  match s with
  | [] => if truthy acc then [acc] else []
  | c :: r =>
    if is_linebreak c then
      match r with
      | c' :: r' =>
        if ((c =? 13) && (c' =? 10))%N then acc :: splitlines_from [] r'
        else acc :: splitlines_from [] r
      | [] => acc :: splitlines_from [] r
      end
    else splitlines_from (acc ++ [c]) r
  end.

Definition splitlines (text : str) : list str := splitlines_from [] text.

(** ["\n".join(lines)] *)
Fixpoint join_nl (lines : list str) : str :=
  match lines with
  | [] => []
  | [l] => l
  | l :: rest => l ++ [10%N] ++ join_nl rest
  end.

(** The body of [for raw in lines], with the lines appended to
    [out_lines] from this line on. *)
Fixpoint annotate_lines (cfg : Config) (lines : list str) (sent_idx : N)
  : list str :=
  match lines with
  | [] => []
  | raw :: rest =>
    let line := rstrip_nl raw in
    if negb (truthy (strip line)) then [] :: annotate_lines cfg rest sent_idx
    else
      let sent_idx := (sent_idx + 1)%N in
      let tokens := tokenize line in
      let ne_map :=
        if NER_ENABLED cfg then _build_ne_map (ner self line) tokens
        else ∅ in
      let '(sent_rows, labels_in_sent) := run_tokens ne_map cfg tokens in
      let '(matrix, embed) := _decide_matrix_embed labels_in_sent cfg in
      (if FEATURE_SENTENCE_ID cfg
       then [u "SentenceID" ++ [9%N] ++ u (pretty sent_idx)] else [])
      ++ sent_rows
      ++ (if FEATURE_MATRIX_LANGUAGE cfg then
            [u "MatrixLang" ++ [9%N] ++ u matrix]
            ++ (if FEATURE_EMBEDDED_LANGUAGE cfg
                then [u "EmbedLang" ++ [9%N] ++ u embed] else [])
          else
            if FEATURE_EMBEDDED_LANGUAGE cfg
            then [u "EmbedLang" ++ [9%N] ++ u embed] else [])
      ++ [[]]
      ++ annotate_lines cfg rest sent_idx
  end.

Definition annotate (text : str) (user_cfg : option UserCfg) : str :=
  let cfg :=
    match user_cfg with
    | Some user => cfg_update DEFAULTS user
    | None => DEFAULTS
    end in
  join_nl (annotate_lines cfg (splitlines text) 0).

End Pipeline.

(** ** A concrete character database for the examples

    [str.lower()], [\w] and [\d] on the code points below U+0180 (Basic
    Latin, Latin-1 Supplement, Latin Extended-A), which hold the English
    and the Turkish alphabet.  Above U+0180 this instance knows no word
    character and leaves case alone; the examples stay below. *)
Definition latin_lower_char (c : char) : str :=
  (if (65 <=? c) && (c <=? 90) then [c + 32]
   else if (192 <=? c) && (c <=? 222) && negb (c =? 215) then [c + 32]
   else if (c =? 304) then [105; 775]
   else if (c =? 376) then [255]
   else if ((256 <=? c) && (c <=? 303) || (306 <=? c) && (c <=? 311)
            || (330 <=? c) && (c <=? 375)) && N.even c then [c + 1]
   else if ((313 <=? c) && (c <=? 328) || (377 <=? c) && (c <=? 382))
           && N.odd c then [c + 1]
   else [c])%N.

Definition latin_is_word (c : char) : bool :=
  ((48 <=? c) && (c <=? 57) || (65 <=? c) && (c <=? 90) || (c =? 95)
   || (97 <=? c) && (c <=? 122)
   || (c =? 170) || (c =? 178) || (c =? 179) || (c =? 181) || (c =? 185)
   || (c =? 186) || (188 <=? c) && (c <=? 190)
   || (192 <=? c) && (c <=? 383) && negb (c =? 215) && negb (c =? 247))%N.

Definition latin : Unicode := {|
  lower := fun s => concat (map latin_lower_char s);
  is_word := latin_is_word;
  is_digit := fun c => ((48 <=? c) && (c <=? 57))%N;
|}.

(** An annotator for the examples: small frequency lists, an identifier
    that never reaches a threshold, and a recogniser that reports the
    one entity [Ali Veli] in every line. *)
Definition demo : Annotator := {|
  turkish_freq_top := list_to_set [u "ve"; u "bir"; u "ev"];
  turkish_freq_all := list_to_set [u "ve"; u "bir"; u "ev"; u "kitabı"];
  english_freq_words :=
    list_to_set [u "selfie"; u "the"; u "meeting"; u "it"];
  _ft_predict := fun _ => ("DE", 0.5%float);
  ner := fun _ => [u "Ali Veli"];
|}.

(** A [user_cfg] that sets the three unread keys and nothing else. *)
Definition unread_keys_set : UserCfg := {|
  set_FEATURE_LANGUAGE_PER_ITEM := None;
  set_FEATURE_MATRIX_LANGUAGE := None;
  set_FEATURE_EMBEDDED_LANGUAGE := None;
  set_FEATURE_SENTENCE_ID := None;
  set_NER_ENABLED := None;
  set_FT_EN_MIN := None;
  set_FT_TR_MIN := None;
  set_MIXED_STRICT := None;
  set_EMIT_MIXED_SUFFIX := Some true;
  set_MIXED_TR_WEIGHT := None;
  set_MIXED_EN_WEIGHT := None;
  set_EMBED_MIN_COUNT := Some 3%Z;
  set_EMBED_MIN_RATIO := Some 0.5%float;
|}.

(** A [user_cfg] that switches the per-token rows off and sets nothing
    else. *)
Definition per_item_off : UserCfg := {|
  set_FEATURE_LANGUAGE_PER_ITEM := Some false;
  set_FEATURE_MATRIX_LANGUAGE := None;
  set_FEATURE_EMBEDDED_LANGUAGE := None;
  set_FEATURE_SENTENCE_ID := None;
  set_NER_ENABLED := None;
  set_FT_EN_MIN := None;
  set_FT_TR_MIN := None;
  set_MIXED_STRICT := None;
  set_EMIT_MIXED_SUFFIX := None;
  set_MIXED_TR_WEIGHT := None;
  set_MIXED_EN_WEIGHT := None;
  set_EMBED_MIN_COUNT := None;
  set_EMBED_MIN_RATIO := None;
|}.

(** A [user_cfg] that switches named-entity recognition off and sets
    nothing else. *)
Definition ner_off : UserCfg := {|
  set_FEATURE_LANGUAGE_PER_ITEM := None;
  set_FEATURE_MATRIX_LANGUAGE := None;
  set_FEATURE_EMBEDDED_LANGUAGE := None;
  set_FEATURE_SENTENCE_ID := None;
  set_NER_ENABLED := Some false;
  set_FT_EN_MIN := None;
  set_FT_TR_MIN := None;
  set_MIXED_STRICT := None;
  set_EMIT_MIXED_SUFFIX := None;
  set_MIXED_TR_WEIGHT := None;
  set_MIXED_EN_WEIGHT := None;
  set_EMBED_MIN_COUNT := None;
  set_EMBED_MIN_RATIO := None;
|}.

(** ** Loading the frequency lists

    [Annotator.__init__] reads two word lists line by line.  The files
    are given by the lines a file iterator yields; the fastText wrapper
    and the Stanza pipeline are given as they are. *)

Fixpoint takewhile {A} (p : A -> bool) (l : list A) : list A :=
  match l with
  | [] => []
  | x :: r => if p x then x :: takewhile p r else []
  end.

(** [parts = line.strip().split()]: [parts[0]] when [parts] is not
    empty, the first run of characters that are not white space. *)
Definition first_part (line : str) : option str :=
  match dropwhile is_space line with
  | [] => None
  | c :: r => Some (c :: takewhile (fun x => negb (is_space x)) r)
  end.

Section Loading.
Context `{Unicode}.

(** [for i, line in enumerate(f)] over the Turkish list, from index [i]
    on: every word goes to [turkish_freq_all], the words of the lines
    with index below 1000 to [turkish_freq_top] as well. *)
Fixpoint load_tr (i : nat) (lines : list str) (top all : gset str)
  : gset str * gset str :=
  match lines with
  | [] => (top, all)
  | line :: rest =>
    match first_part line with
    | None => load_tr (S i) rest top all
    | Some part =>
      let w := lower part in
      load_tr (S i) rest
        (if (i <? 1000)%nat then top ∪ {[w]} else top) (all ∪ {[w]})
    end
  end.

(** [for line in f] over the English list. *)
Fixpoint load_en (lines : list str) (words : gset str) : gset str :=
  match lines with
  | [] => words
  | line :: rest =>
    match first_part line with
    | None => load_en rest words
    | Some part => load_en rest (words ∪ {[lower part]})
    end
  end.

Definition __init__ (freq_tr freq_en : list str)
  (ft : str -> string * float) (recogniser : str -> list str) : Annotator :=
  let '(top, all) := load_tr 0 freq_tr ∅ ∅ in
  {| turkish_freq_top := top;
     turkish_freq_all := all;
     english_freq_words := load_en freq_en ∅;
     _ft_predict := ft;
     ner := recogniser |}.

End Loading.

(** * Properties *)

(** ** Slices and endings *)

Lemma endswith_suffix (s e : str) : endswith s e = true <-> e `suffix_of` s.
Proof. unfold endswith. apply bool_decide_eq_true. Qed.

Lemma slice_neg_app (k : nat) (s : str) :
  slice_to_neg k s ++ slice_from_neg k s = s.
Proof.
  destruct k as [|k]; simpl; [done|]. apply take_drop.
Qed.

Lemma slice_from_neg_ending (s e : str) :
  e <> [] -> e `suffix_of` s -> slice_from_neg (length e) s = e.
Proof.
  intros Hne [k ->]. unfold slice_from_neg.
  destruct e as [|c e]; [congruence|]. simpl length.
  rewrite length_app. simpl length.
  replace (length k + S (length e) - S (length e))%nat with (length k)
    by lia.
  by rewrite drop_app_length.
Qed.

Lemma slice_to_neg_ending (s e : str) :
  e <> [] -> e `suffix_of` s -> slice_to_neg (length e) s ++ e = s.
Proof.
  intros Hne Hsuf.
  rewrite <- (slice_from_neg_ending s e Hne Hsuf) at 2.
  apply slice_neg_app.
Qed.

Lemma slice_to_neg_shorter (s e : str) :
  e <> [] -> e `suffix_of` s ->
  (length (slice_to_neg (length e) s) < length s)%nat.
Proof.
  intros Hne Hsuf.
  pose proof (slice_to_neg_ending s e Hne Hsuf) as Heq.
  apply (f_equal length) in Heq. rewrite length_app in Heq.
  assert (length e <> 0)%nat by (by destruct e).
  lia.
Qed.

(** Two endings of one length that end the same string are the same
    ending: the order of equally long candidates cannot matter. *)
Lemma endswith_same_length (s e1 e2 : str) :
  length e1 = length e2 ->
  endswith s e1 = true -> endswith s e2 = true -> e1 = e2.
Proof.
  intros Hlen H1%endswith_suffix H2%endswith_suffix.
  destruct e1 as [|c1 e1], e2 as [|c2 e2]; try done.
  rewrite <- (slice_from_neg_ending s (c1 :: e1)) by done.
  rewrite <- (slice_from_neg_ending s (c2 :: e2)) by done.
  by rewrite Hlen.
Qed.

(** What a successful table scan gives, for a table without empty key. *)
Definition keys_nonempty {A} (table : list (str * A)) : bool :=
  forallb (fun it => truthy it.1) table.

Lemma first_match_some {A} (table : list (str * A)) (s e : str) (f : A) :
  keys_nonempty table = true ->
  first_match table s = Some (e, f) ->
  e <> [] /\ e `suffix_of` s.
Proof.
  unfold keys_nonempty, first_match. intros Hk Hf.
  apply find_some in Hf as [Hin Hend]. simpl in Hend.
  rewrite forallb_forall in Hk. specialize (Hk _ Hin). simpl in Hk.
  split; [by destruct e | by apply endswith_suffix].
Qed.

Lemma buffer_keys : keys_nonempty (sorted_items (BUFFER_N_ACC ++ BUFFER_N_DAT)) = true.
Proof. vm_compute. reflexivity. Qed.

Lemma case_keys : keys_nonempty (sorted_items CASE_ENDINGS) = true.
Proof. vm_compute. reflexivity. Qed.

Lemma poss_long_keys : keys_nonempty (sorted_items POSS_LONG) = true.
Proof. vm_compute. reflexivity. Qed.

Lemma poss_short_keys : keys_nonempty (sorted_items POSS_SHORT) = true.
Proof. vm_compute. reflexivity. Qed.

Lemma plur_keys : keys_nonempty (sorted_items PLUR) = true.
Proof. vm_compute. reflexivity. Qed.

Lemma deriv_keys : keys_nonempty (sorted_items DERIV_SUFFIXES) = true.
Proof. vm_compute. reflexivity. Qed.

Lemma bare_vowel_some (s e : str) :
  List.find (endswith s) BARE_VOWELS = Some e ->
  length e = 1%nat /\ e `suffix_of` s.
Proof.
  intros Hf. apply find_some in Hf as [Hin Hend].
  split; [|by apply endswith_suffix].
  vm_compute in Hin. by destruct Hin as [<-|[<-|[<-|[<-|[]]]]].
Qed.

(** ** The parser: termination of its loops and the round trip *)

(** The text a parser state stands for: what is still unparsed, followed
    by the segments in surface order. *)
Definition surface (st : pstate) : str :=
  cur st ++ concat (rev (segments_rev st)).

Definition shrinks (body : pstate -> option pstate) : Prop :=
  forall st st', body st = Some st' ->
    (length (cur st') < length (cur st))%nat.

Definition keeps_surface (body : pstate -> option pstate) : Prop :=
  forall st st', body st = Some st' -> surface st' = surface st.

Lemma surface_snoc (c : str) (segs : list str) (seg : str) :
  c ++ concat (rev (segs ++ [seg])) = (c ++ seg) ++ concat (rev segs).
Proof. rewrite rev_app_distr. simpl. by rewrite <- app_assoc. Qed.

Lemma strip_ud_surface st e feats : surface (strip_ud st e feats) = surface st.
Proof.
  unfold surface, strip_ud; simpl.
  by rewrite surface_snoc, slice_neg_app.
Qed.

Lemma strip_ending_surface (c e : str) (segs : list str) :
  e <> [] -> e `suffix_of` c ->
  slice_to_neg (length e) c ++ concat (rev (segs ++ [e]))
  = c ++ concat (rev segs).
Proof.
  intros Hne Hsuf. by rewrite surface_snoc, slice_to_neg_ending.
Qed.

Lemma case_body_shrinks : shrinks case_body.
Proof.
  intros st st'. unfold case_body.
  destruct (first_match _ (cur st)) as [[e f]|] eqn:E1.
  - intros [= <-]. apply (first_match_some _ _ _ _ buffer_keys) in E1 as [??].
    by apply slice_to_neg_shorter.
  - destruct (first_match (sorted_items CASE_ENDINGS) _) as [[e f]|] eqn:E2;
      [|done].
    intros [= <-]. apply (first_match_some _ _ _ _ case_keys) in E2 as [??].
    by apply slice_to_neg_shorter.
Qed.

Lemma case_body_surface : keeps_surface case_body.
Proof.
  intros st st'. unfold case_body.
  destruct (first_match _ (cur st)) as [[e f]|].
  - intros [= <-]. apply strip_ud_surface.
  - destruct (first_match _ (cur st)) as [[e f]|]; [|done].
    intros [= <-]. apply strip_ud_surface.
Qed.

Lemma poss_body_shrinks : shrinks poss_body.
Proof.
  intros st st'. unfold poss_body.
  destruct (first_match _ (cur st)) as [[e f]|] eqn:E1.
  - intros [= <-].
    apply (first_match_some _ _ _ _ poss_long_keys) in E1 as [??].
    by apply slice_to_neg_shorter.
  - destruct (first_match (sorted_items POSS_SHORT) _) as [[e f]|] eqn:E2.
    + intros [= <-].
      apply (first_match_some _ _ _ _ poss_short_keys) in E2 as [??].
      by apply slice_to_neg_shorter.
    + destruct (List.find _ BARE_VOWELS) as [e|] eqn:E3; [|done].
      intros [= <-]. apply bare_vowel_some in E3 as [Hlen Hsuf].
      change (cur (strip_amb st e)) with (slice_to_neg 1 (cur st)).
      rewrite <- Hlen. apply slice_to_neg_shorter; [|done].
      by destruct e.
Qed.

Lemma poss_body_surface : keeps_surface poss_body.
Proof.
  intros st st'. unfold poss_body.
  destruct (first_match _ (cur st)) as [[e f]|].
  - intros [= <-]. apply strip_ud_surface.
  - destruct (first_match _ (cur st)) as [[e f]|].
    + intros [= <-]. apply strip_ud_surface.
    + destruct (List.find _ BARE_VOWELS) as [e|] eqn:E3; [|done].
      intros [= <-]. apply bare_vowel_some in E3 as [Hlen Hsuf].
      unfold surface.
      change (cur (strip_amb st e)) with (slice_to_neg 1 (cur st)).
      change (segments_rev (strip_amb st e)) with (segments_rev st ++ [e]).
      rewrite <- Hlen.
      apply strip_ending_surface; [by destruct e | done].
Qed.

Lemma deriv_body_shrinks : shrinks deriv_body.
Proof.
  intros st st'. unfold deriv_body.
  destruct (first_match _ (cur st)) as [[e [dtag dpos]]|] eqn:E1; [|done].
  intros [= <-]. apply (first_match_some _ _ _ _ deriv_keys) in E1 as [??].
  by apply slice_to_neg_shorter.
Qed.

Lemma deriv_body_surface : keeps_surface deriv_body.
Proof.
  intros st st'. unfold deriv_body.
  destruct (first_match _ (cur st)) as [[e [dtag dpos]]|] eqn:E1; [|done].
  intros [= <-]. apply (first_match_some _ _ _ _ deriv_keys) in E1 as [??].
  unfold surface, strip_deriv; simpl. by apply strip_ending_surface.
Qed.

Lemma plur_step_surface st : surface (plur_step st) = surface st.
Proof.
  unfold plur_step.
  destruct (first_match _ (cur st)) as [[e f]|] eqn:E1; [|done].
  apply (first_match_some _ _ _ _ plur_keys) in E1 as [??].
  unfold surface, strip_plur; simpl. by apply strip_ending_surface.
Qed.

Lemma while_progress_surface body fuel st :
  keeps_surface body -> surface (while_progress body fuel st) = surface st.
Proof.
  intros Hk. revert st. induction fuel as [|fuel IH]; intros st; simpl.
  - done.
  - destruct (truthy (cur st)); [|done].
    destruct (body st) as [st'|] eqn:E; [|done].
    rewrite IH. by apply Hk.
Qed.

(** Fuel beyond the length of [s] is never used: the loop has stopped by
    itself before. *)
Lemma while_progress_fuel body :
  shrinks body ->
  forall fuel st, (length (cur st) <= fuel)%nat ->
    while_progress body fuel st = while_progress body (length (cur st)) st.
Proof.
  intros Hs fuel. induction fuel as [fuel IH] using lt_wf_ind.
  intros st Hlen. destruct fuel as [|fuel].
  - by replace (length (cur st)) with 0%nat by lia.
  - destruct (cur st) as [|c s] eqn:Ecur.
    + simpl. by rewrite Ecur.
    + simpl. rewrite Ecur. simpl.
      destruct (body st) as [st'|] eqn:E; [|done].
      pose proof (Hs _ _ E) as Hlt. rewrite Ecur in Hlt.
      simpl in Hlt, Hlen.
      rewrite (IH fuel) by lia.
      by rewrite (IH (length s)) by lia.
Qed.

(** On exit nothing is left or the last turn did not progress: the loop
    ended as the source's does, not for want of fuel. *)
Lemma while_progress_exit body :
  shrinks body ->
  forall fuel st, (length (cur st) <= fuel)%nat ->
    let st' := while_progress body fuel st in
    cur st' = [] \/ body st' = None.
Proof.
  intros Hs fuel. induction fuel as [|fuel IH]; intros st Hlen; simpl.
  - left. apply length_zero_iff_nil. lia.
  - destruct (truthy (cur st)) eqn:Et.
    + destruct (body st) as [st'|] eqn:E; [|by right].
      apply IH. pose proof (Hs _ _ E) as Hlt. lia.
    + left. by destruct (cur st).
Qed.

Lemma parse_passes_surface (s : str) :
  concat (rev (segments_rev (parse_passes s))) = s.
Proof.
  unfold parse_passes.
  set (st1 := while_progress case_body _ _).
  set (st2 := while_progress poss_body _ _).
  set (st3 := plur_step _).
  set (st4 := while_progress deriv_body _ _).
  assert (Hs : surface st4 = s).
  { unfold st4. rewrite (while_progress_surface _ _ _ deriv_body_surface).
    unfold st3. rewrite plur_step_surface.
    unfold st2. rewrite (while_progress_surface _ _ _ poss_body_surface).
    unfold st1. rewrite (while_progress_surface _ _ _ case_body_surface).
    unfold surface; simpl. by rewrite app_nil_r. }
  unfold surface in Hs.
  destruct (truthy (cur st4)) eqn:Et.
  - unfold keep_leftover; simpl. by rewrite rev_app_distr.
  - destruct (cur st4); [done | discriminate].
Qed.

(** C1, as amended.  The segments [_parse_tr_suffixes_full] returns,
    concatenated in the returned left-to-right order, give back the
    lower-cased suffix: the parser works on [suffix.lower()], and no
    character of that string is created, dropped or altered.  For a
    suffix that is already in lower case this is the suffix itself. *)
Theorem parse_segments_roundtrip `{Unicode} (suffix : str) :
  let '(segments, _, _, _) := _parse_tr_suffixes_full suffix in
  concat segments = lower suffix
  /\ (lower suffix = suffix -> concat segments = suffix).
Proof.
  unfold _parse_tr_suffixes_full.
  pose proof (parse_passes_surface (lower suffix)) as Hs.
  split; [exact Hs|]. intros Hlow. by rewrite Hs.
Qed.

(** C1 as stated fails on a suffix with a capital letter: the apostrophe
    path hands the parser the suffix in the casing of the token, and
    [SELFIE'YI] gives the suffix [YI], whose one segment is [yi]. *)
Lemma parse_roundtrip_not_verbatim :
  let '(segments, _, _, _) := @_parse_tr_suffixes_full latin (u "YI") in
  concat segments <> u "YI".
Proof. vm_compute. discriminate. Qed.

(** ** The sentence aggregator *)

Lemma fold_ones {A} (l : list A) (a : Z) :
  fold_left Z.add (map (fun _ => 1%Z) l) a = (a + Z.of_nat (length l))%Z.
Proof.
  revert a. induction l as [|x l IH]; intros a; simpl length; simpl map.
  - simpl. lia.
  - simpl fold_left. rewrite IH. lia.
Qed.

Lemma filter_eqb_count (tag : string) (labels : list string) :
  length (List.filter (fun lb => String.eqb lb tag) labels)
  = count_occ string_dec labels tag.
Proof.
  induction labels as [|lb labels IH]; simpl; [done|].
  destruct (String.eqb_spec lb tag) as [->|Hne].
  - destruct (string_dec tag tag); [|done]. simpl. by rewrite IH.
  - destruct (string_dec lb tag); [done|]. apply IH.
Qed.

(** The generator sums of the source are the label counts. *)
Lemma sum_ones_count (tag : string) (labels : list string) :
  sum_ones tag labels = Z.of_nat (count_occ string_dec labels tag).
Proof.
  unfold sum_ones. rewrite fold_ones, filter_eqb_count. lia.
Qed.

(** [x == y] for floats entails [x >= y]. *)
Lemma SFcompare_eq_sym (x y : SpecFloat.spec_float) :
  SpecFloat.SFcompare x y = Some Eq -> SpecFloat.SFcompare y x = Some Eq.
Proof.
  destruct x as [sx|sx| |sx mx ex], y as [sy|sy| |sy my ey]; simpl;
    try done;
    try (by destruct sx, sy); try (by destruct sx); try (by destruct sy).
  destruct sx, sy; try done.
  - destruct (Z.compare ex ey) eqn:Ee; try done.
    apply Z.compare_eq in Ee as ->. rewrite Z.compare_refl.
    destruct (Pos.compare_cont Eq mx my) eqn:Em; try done.
    apply Pos.compare_eq in Em as ->. by rewrite Pos.compare_cont_refl.
  - destruct (Z.compare ex ey) eqn:Ee; try done.
    apply Z.compare_eq in Ee as ->. rewrite Z.compare_refl.
    destruct (Pos.compare_cont Eq mx my) eqn:Em; try done.
    apply Pos.compare_eq in Em as ->. by rewrite Pos.compare_cont_refl.
Qed.

Lemma float_eqb_leb (x y : float) :
  (x =? y)%float = true -> (y <=? x)%float = true.
Proof.
  rewrite FloatAxioms.eqb_spec, FloatAxioms.leb_spec.
  unfold SpecFloat.SFeqb, SpecFloat.SFleb.
  destruct (SpecFloat.SFcompare (Prim2SF x) (Prim2SF y)) as [[]|] eqn:E;
    try done.
  intros _. by rewrite (SFcompare_eq_sym _ _ E).
Qed.

(** C2.  Matrix is TR exactly when
    [count(TR) + MIXED_TR_WEIGHT * count(MIXED)
     >= count(EN) + MIXED_EN_WEIGHT * count(MIXED)]
    in Python's float arithmetic, and EN otherwise; equal scores give TR;
    and the labels [TR, TR, MIXED] under the default weights 0.6 and 0.4
    score 2.6 against 0.4 and give Matrix TR (with Embed EN). *)
Theorem decide_matrix_rule (labels : list string) (cfg : Config) :
  let count tag := py_float (Z.of_nat (count_occ string_dec labels tag)) in
  let s_tr := (count "TR" + MIXED_TR_WEIGHT cfg * count "MIXED")%float in
  let s_en := (count "EN" + MIXED_EN_WEIGHT cfg * count "MIXED")%float in
  (_decide_matrix_embed labels cfg).1
    = (if (s_en <=? s_tr)%float then "TR" else "EN")
  /\ ((s_tr =? s_en)%float = true ->
      (_decide_matrix_embed labels cfg).1 = "TR")
  /\ score_tr ["TR"; "TR"; "MIXED"] DEFAULTS = 2.6%float
  /\ score_en ["TR"; "TR"; "MIXED"] DEFAULTS = 0.4%float
  /\ _decide_matrix_embed ["TR"; "TR"; "MIXED"] DEFAULTS = ("TR", "EN").
Proof.
  intros count s_tr s_en.
  assert (Htr : score_tr labels cfg = s_tr).
  { unfold score_tr, s_tr, count. by rewrite !sum_ones_count. }
  assert (Hen : score_en labels cfg = s_en).
  { unfold score_en, s_en, count. by rewrite !sum_ones_count. }
  assert (Hm : (_decide_matrix_embed labels cfg).1
               = (if (s_en <=? s_tr)%float then "TR" else "EN")).
  { unfold _decide_matrix_embed. cbn [fst]. by rewrite Htr, Hen. }
  split; [exact Hm|]. split.
  - intros Htie. rewrite Hm. by rewrite (float_eqb_leb _ _ Htie).
  - repeat split; vm_compute; reflexivity.
Qed.

(** The language opposite to a Matrix label. *)
Definition opposite (matrix : string) : string :=
  if String.eqb matrix "TR" then "EN" else "TR".

Lemma existsb_two (a b : string) (labels : list string) :
  existsb (fun lb => String.eqb lb a || String.eqb lb b) labels = false
  <-> ~ In a labels /\ ~ In b labels.
Proof.
  induction labels as [|lb labels IH]; simpl.
  - tauto.
  - rewrite orb_false_iff, orb_false_iff, IH.
    destruct (String.eqb_spec lb a), (String.eqb_spec lb b); subst;
      intuition congruence.
Qed.

(** C3.  Embed is ["-"] if and only if the labels hold neither the
    language opposite to the chosen Matrix nor MIXED; otherwise Embed is
    that opposite language; and Embed is one of TR, EN and ["-"]. *)
Theorem embed_rule (labels : list string) (cfg : Config) :
  let '(matrix, embed) := _decide_matrix_embed labels cfg in
  (matrix = "TR" \/ matrix = "EN")
  /\ (embed = "-" <->
      ~ In (opposite matrix) labels /\ ~ In "MIXED" labels)
  /\ (embed <> "-" -> embed = opposite matrix)
  /\ (embed = "TR" \/ embed = "EN" \/ embed = "-").
Proof.
  unfold _decide_matrix_embed.
  destruct (score_en labels cfg <=? score_tr labels cfg)%float.
  - change (String.eqb "TR" "TR") with true. cbv iota.
    change (opposite "TR") with "EN".
    split; [by left|].
    destruct (existsb _ labels) eqn:E.
    + split; [|split; [done | by right; left]].
      split; [discriminate|].
      intros Hno. apply existsb_two in Hno. congruence.
    + split; [|split; [congruence | by right; right]].
      split; [intros _; by apply existsb_two | done].
  - change (String.eqb "EN" "TR") with false. cbv iota.
    change (opposite "EN") with "TR".
    split; [by right|].
    destruct (existsb _ labels) eqn:E.
    + split; [|split; [done | by left]].
      split; [discriminate|].
      intros Hno. apply existsb_two in Hno. congruence.
    + split; [|split; [congruence | by right; right]].
      split; [intros _; by apply existsb_two | done].
Qed.

(** Labels that take part in the vote and in the embed check. *)
Definition scored (lb : string) : bool :=
  negb (String.eqb lb "NE" || String.eqb lb "OTHER" || String.eqb lb "UID").

Lemma filter_filter_keep (p q : string -> bool) (l : list string) :
  (forall x, p x = true -> q x = true) ->
  List.filter p (List.filter q l) = List.filter p l.
Proof.
  intros Hpq. induction l as [|x l IH]; simpl; [done|].
  destruct (q x) eqn:Eq; simpl.
  - destruct (p x); by rewrite IH.
  - destruct (p x) eqn:Ep; [|done]. apply Hpq in Ep. congruence.
Qed.

Lemma existsb_filter_keep (p q : string -> bool) (l : list string) :
  (forall x, p x = true -> q x = true) ->
  existsb p (List.filter q l) = existsb p l.
Proof.
  intros Hpq. induction l as [|x l IH]; simpl; [done|].
  destruct (q x) eqn:Eq; simpl.
  - by rewrite IH.
  - destruct (p x) eqn:Ep; [|done]. apply Hpq in Ep. congruence.
Qed.

Lemma sum_ones_scored (tag : string) (labels : list string) :
  scored tag = true ->
  sum_ones tag (List.filter scored labels) = sum_ones tag labels.
Proof.
  intros Hs. unfold sum_ones. rewrite filter_filter_keep; [done|].
  intros x Hx. apply String.eqb_eq in Hx. by subst.
Qed.

(** C8.  Removing every NE, OTHER and UID label changes neither score
    and so neither the Matrix nor the Embed result. *)
Theorem decide_matrix_ignores_unscored (labels : list string)
  (cfg : Config) :
  score_tr (List.filter scored labels) cfg = score_tr labels cfg
  /\ score_en (List.filter scored labels) cfg = score_en labels cfg
  /\ _decide_matrix_embed (List.filter scored labels) cfg
     = _decide_matrix_embed labels cfg.
Proof.
  assert (Htr : score_tr (List.filter scored labels) cfg
                = score_tr labels cfg).
  { unfold score_tr. by rewrite !sum_ones_scored. }
  assert (Hen : score_en (List.filter scored labels) cfg
                = score_en labels cfg).
  { unfold score_en. by rewrite !sum_ones_scored. }
  repeat split; [done..|].
  unfold _decide_matrix_embed. rewrite Htr, Hen.
  rewrite !existsb_filter_keep; [done|..].
  - intros x [Hx|Hx]%orb_true_iff; apply String.eqb_eq in Hx; by subst.
  - intros x [Hx|Hx]%orb_true_iff; apply String.eqb_eq in Hx; by subst.
Qed.

(** ** The language chooser *)

(** C4.  [_choose_label] decides by the first rule that applies: the
    Turkish top-1000 set gives TR; else the English set gives EN; else
    the full Turkish set gives TR; else the identifier's EN with
    confidence at least [FT_EN_MIN] gives EN; else its TR with confidence
    at least [FT_TR_MIN] gives TR; else UID. *)
Theorem choose_label_priority (self : Annotator) (t : str) (cfg : Config) :
  let lang := (_ft_predict self t).1 in
  let prob := (_ft_predict self t).2 in
  let en_ok := lang = "EN" /\ (FT_EN_MIN cfg <=? prob)%float = true in
  let tr_ok := lang = "TR" /\ (FT_TR_MIN cfg <=? prob)%float = true in
  (t ∈ turkish_freq_top self -> _choose_label self t cfg = "TR")
  /\ (t ∉ turkish_freq_top self -> t ∈ english_freq_words self ->
      _choose_label self t cfg = "EN")
  /\ (t ∉ turkish_freq_top self -> t ∉ english_freq_words self ->
      t ∈ turkish_freq_all self -> _choose_label self t cfg = "TR")
  /\ (t ∉ turkish_freq_top self -> t ∉ english_freq_words self ->
      t ∉ turkish_freq_all self -> en_ok ->
      _choose_label self t cfg = "EN")
  /\ (t ∉ turkish_freq_top self -> t ∉ english_freq_words self ->
      t ∉ turkish_freq_all self -> ~ en_ok -> tr_ok ->
      _choose_label self t cfg = "TR")
  /\ (t ∉ turkish_freq_top self -> t ∉ english_freq_words self ->
      t ∉ turkish_freq_all self -> ~ en_ok -> ~ tr_ok ->
      _choose_label self t cfg = "UID").
Proof.
  intros lang prob en_ok tr_ok. unfold _choose_label.
  subst lang prob en_ok tr_ok.
  destruct (_ft_predict self t) as [lang prob]. cbn [fst snd].
  destruct (String.eqb_spec lang "EN") as [Hl1|Hl1];
    destruct (String.eqb_spec lang "TR") as [Hl2|Hl2];
    destruct (FT_EN_MIN cfg <=? prob)%float eqn:E1;
    destruct (FT_TR_MIN cfg <=? prob)%float eqn:E2; simpl;
    repeat split; intros; repeat case_bool_decide;
    first [done | intuition congruence].
Qed.

(** ** The apostrophe split *)

Section Apostrophe.
Context `{Unicode}.

Lemma re_split_apos_none (acc token : str) :
  existsb is_apos token = false -> re_split_apos acc token = [acc ++ token].
Proof.
  revert acc. induction token as [|c r IH]; intros acc; simpl.
  - by rewrite app_nil_r.
  - intros [Hc Hr]%orb_false_iff. rewrite Hc, IH by done.
    by rewrite <- app_assoc.
Qed.

(** A split into two parts means the token holds a delimiter. *)
Lemma re_split_apos_two (token base suff : str) :
  re_split_apos [] token = [base; suff] -> existsb is_apos token = true.
Proof.
  intros Hs. destruct (existsb is_apos token) eqn:E; [done|].
  by rewrite re_split_apos_none in Hs.
Qed.

(** The lower-cased right parts that [EN_CONTRACTIONS] holds. *)
Lemma EN_CONTRACTIONS_list (sfx : str) :
  sfx ∈ EN_CONTRACTIONS
  <-> In sfx [u "s"; u "re"; u "ve"; u "m"; u "ll"; u "d"; u "t"].
Proof.
  unfold EN_CONTRACTIONS. rewrite elem_of_list_to_set.
  apply list_elem_of_In.
Qed.

Lemma split_mixed_apostrophe_spec (token base suff : str) :
  re_split_apos [] token = [base; suff] -> base <> [] -> suff <> [] ->
  _split_mixed_apostrophe token
  = if bool_decide (lower suff ∈ EN_CONTRACTIONS)
       || endswith (lower suff) (u "n't")
    then None else Some (base, suff).
Proof.
  intros Hs Hb Hf. unfold _split_mixed_apostrophe.
  rewrite (re_split_apos_two _ _ _ Hs), Hs.
  by destruct base, suff.
Qed.

(** C9.  When the apostrophe splits a token into two non-empty parts and
    the lower-cased right part is one of s, re, ve, m, ll, d, t or ends
    with [n't], [_split_mixed_apostrophe] yields no pair, and so the
    apostrophe path of the classifier settles no label for the token:
    it cannot be labelled MIXED there, and if it is labelled MIXED at
    all, the no-apostrophe detector did it. *)
Theorem contraction_not_split (self : Annotator)
  (ne_map : gmap str string) (cfg : Config) (token base suff : str) :
  re_split_apos [] token = [base; suff] -> base <> [] -> suff <> [] ->
  In (lower suff) [u "s"; u "re"; u "ve"; u "m"; u "ll"; u "d"; u "t"]
  \/ endswith (lower suff) (u "n't") = true ->
  _split_mixed_apostrophe token = None
  /\ apostrophe_path self token cfg = None
  /\ (classify self ne_map cfg token = "MIXED" ->
      both_truthy (_detect_mixed_no_apostrophe self token cfg) = true).
Proof.
  intros Hs Hb Hf Hc.
  assert (Hnone : _split_mixed_apostrophe token = None).
  { rewrite (split_mixed_apostrophe_spec _ _ _ Hs Hb Hf).
    destruct Hc as [Hc|Hc].
    - apply EN_CONTRACTIONS_list in Hc. by rewrite bool_decide_true.
    - rewrite Hc. by rewrite orb_true_r. }
  assert (Hpath : apostrophe_path self token cfg = None).
  { unfold apostrophe_path. by rewrite Hnone. }
  split; [done|]. split; [done|].
  unfold classify. rewrite Hpath.
  destruct (is_other_token token); [done|].
  case_bool_decide; [done|].
  destruct (both_truthy _); [done|]. rewrite andb_false_r.
  unfold _choose_label. repeat case_bool_decide; try done.
  destruct (_ft_predict self _) as [lang prob].
  destruct (_ && _); [done|]. by destruct (_ && _).
Qed.


End Apostrophe.

(** ** Tokens *)

Section Tokens.
Context `{Unicode}.

(** The characters [clean_token] keeps. *)
Definition kept (c : char) : bool := is_word c || is_apos c.

Lemma span_word_spec (s : str) :
  forall w t, span_word s = (w, t) ->
    w ++ t = s /\ forallb is_word w = true.
Proof.
  induction s as [|c r IH]; intros w t; simpl.
  - by intros [= <- <-].
  - destruct (is_word c) eqn:Ec.
    + destruct (span_word r) as [w' t'] eqn:E. intros [= <- <-].
      destruct (IH _ _ eq_refl) as [<- Hw]. simpl. by rewrite Ec.
    + by intros [= <- <-].
Qed.

Lemma forallb_word_kept (w : str) :
  forallb is_word w = true -> forallb kept w = true.
Proof.
  rewrite !forallb_forall. intros Hw c Hc. unfold kept.
  by rewrite (Hw c Hc).
Qed.

Lemma word_token_spec (s t rest : str) :
  word_token s = (t, rest) ->
  forallb kept t = true /\ (length rest <= length s)%nat
  /\ (length t + length rest = length s)%nat.
Proof.
  unfold word_token.
  destruct (span_word s) as [w1 r1] eqn:E1.
  apply span_word_spec in E1 as [<- Hw1].
  assert (Hap : exists ap r2,
    match r1 with
    | c :: r => if is_apos c then ([c], r) else ([], r1)
    | [] => ([], r1)
    end = (ap, r2) /\ ap ++ r2 = r1 /\ forallb kept ap = true).
  { destruct r1 as [|c r]; [by exists [], []|].
    destruct (is_apos c) eqn:Ec.
    - exists [c], r. repeat split. simpl. unfold kept.
      by rewrite Ec, orb_true_r.
    - by exists [], (c :: r). }
  destruct Hap as (ap & r2 & -> & <- & Hap).
  destruct (span_word r2) as [w2 r3] eqn:E2.
  apply span_word_spec in E2 as [<- Hw2].
  intros [= <- <-]. rewrite !forallb_app, !length_app.
  rewrite (forallb_word_kept _ Hw1), (forallb_word_kept _ Hw2), Hap.
  repeat split; lia.
Qed.

Lemma word_token_nonempty (c : char) (r t rest : str) :
  is_word c = true -> word_token (c :: r) = (t, rest) -> t <> [].
Proof.
  unfold word_token. simpl. intros ->.
  destruct (span_word r) as [w t1].
  destruct (match t1 with [] => _ | _ => _ end) as [ap r2].
  destruct (span_word r2). by intros [= <- <-].
Qed.

(** Every match of the token pattern is non-empty and made of word
    characters and apostrophes. *)
Lemma findall_tokens_kept (lone_apos : bool) (fuel : nat) (s tok : str) :
  In tok (findall_tokens lone_apos fuel s) ->
  tok <> [] /\ forallb kept tok = true.
Proof.
  revert s. induction fuel as [|fuel IH]; intros s; simpl; [done|].
  destruct s as [|c r]; [done|].
  destruct (is_word c) eqn:Ec.
  - destruct (word_token (c :: r)) as [t rest] eqn:E.
    intros [<-|Hin]; [|by eapply IH].
    split; [by eapply word_token_nonempty|].
    by apply word_token_spec in E as [? _].
  - destruct (lone_apos && is_apos c) eqn:Ea.
    + intros [<-|Hin]; [|by eapply IH].
      apply andb_true_iff in Ea as [_ Ea]. split; [done|].
      simpl. unfold kept. by rewrite Ea, orb_true_r.
    + apply IH.
Qed.

(** More fuel than the length of the text changes nothing. *)
Lemma findall_tokens_fuel (lone_apos : bool) (fuel : nat) :
  forall s, (length s <= fuel)%nat ->
    findall_tokens lone_apos fuel s
    = findall_tokens lone_apos (length s) s.
Proof.
  induction fuel as [fuel IH] using lt_wf_ind. intros s Hlen.
  destruct s as [|c r]; [by destruct fuel|].
  destruct fuel as [|fuel]; [simpl in Hlen; lia|].
  simpl in Hlen. simpl length.
  cbn [findall_tokens].
  destruct (is_word c) eqn:Ec.
  - destruct (word_token (c :: r)) as [t rest] eqn:E.
    pose proof (word_token_nonempty _ _ _ _ Ec E) as Hne.
    apply word_token_spec in E as (_ & _ & Hsum). simpl in Hsum.
    assert (length t <> 0)%nat by (by destruct t).
    rewrite (IH fuel) by lia. by rewrite (IH (length r)) by lia.
  - destruct (lone_apos && is_apos c).
    + rewrite (IH fuel) by lia. done.
    + rewrite (IH fuel) by lia. done.
Qed.



End Tokens.

(** ** The token classifier *)

Section Classifier.
Context `{Unicode}.
Variable self : Annotator.

Lemma choose_label_values (t : str) (cfg : Config) :
  _choose_label self t cfg = "TR" \/ _choose_label self t cfg = "EN"
  \/ _choose_label self t cfg = "UID".
Proof.
  unfold _choose_label. repeat case_bool_decide; auto.
  destruct (_ft_predict self t) as [lang prob].
  destruct (_ && _); auto. destruct (_ && _); auto.
Qed.

Lemma apostrophe_path_values (tok : str) (cfg : Config) (lb : string) :
  apostrophe_path self tok cfg = Some lb -> lb = "MIXED" \/ lb = "TR".
Proof.
  unfold apostrophe_path.
  destruct (_split_mixed_apostrophe tok) as [[base suf]|]; [|done].
  destruct (truthy base && truthy suf); [|done].
  destruct (_ && _); [intros [= <-]; by left|].
  destruct (String.eqb _ "TR"); [intros [= <-]; by right | done].
Qed.

(** [classify] is the label of the row the loop body appends when
    per-token rows are on, and the label it records for the sentence is
    that label when it is one of NE, MIXED, TR and EN. *)
Lemma token_step_classify (ne_map : gmap str string) (cfg : Config)
  (tok : str) :
  FEATURE_LANGUAGE_PER_ITEM cfg = true ->
  token_step self ne_map cfg tok
  = ([row tok (classify self ne_map cfg tok)],
     let lb := classify self ne_map cfg tok in
     if String.eqb lb "NE" || String.eqb lb "MIXED" || String.eqb lb "TR"
        || String.eqb lb "EN"
     then [lb] else []).
Proof.
  intros Hitem. unfold token_step, classify. rewrite Hitem.
  destruct (is_other_token tok); [done|].
  case_bool_decide; [done|]. cbn [negb].
  destruct (apostrophe_path self tok cfg) as [lb|] eqn:Eap.
  - by destruct (apostrophe_path_values _ _ _ Eap) as [-> | ->].
  - destruct (negb _ && _); [done|].
    by destruct (choose_label_values (lower (clean_token tok)) cfg)
      as [-> | [-> | ->]].
Qed.




End Classifier.

(** ** Feature sets of the parser *)

Lemma set_truthy_spec (X : gset string) : set_truthy X = true <-> X <> ∅.
Proof.
  unfold set_truthy. rewrite negb_true_iff. apply bool_decide_eq_false.
Qed.

(** A state has a tag when one of its three sets is non-empty: the test
    [bool(ud_feats or deriv or amb)]. *)
Definition tagged (st : pstate) : bool :=
  set_truthy (ud st) || set_truthy (deriv st) || set_truthy (amb st).

(** A tag other than the leftover marker. *)
Definition real_tag (st : pstate) : bool :=
  set_truthy ((ud st ∪ deriv st ∪ amb st) ∖ {["Unparsed=Leftover"]}).

Lemma real_tag_exists (st : pstate) :
  real_tag st = true ->
  exists tag, tag <> "Unparsed=Leftover"
              /\ (tag ∈ ud st \/ tag ∈ deriv st \/ tag ∈ amb st).
Proof.
  unfold real_tag. rewrite set_truthy_spec.
  intros [tag Htag]%set_choose_L. exists tag.
  apply elem_of_difference in Htag as [Hin Hnot].
  rewrite not_elem_of_singleton in Hnot.
  rewrite !elem_of_union in Hin. tauto.
Qed.

Definition values_nonempty {A} (table : list (str * list A)) : bool :=
  forallb (fun it => truthy it.2) table.

Lemma first_match_value {A} (table : list (str * list A)) (s e : str)
  (feats : list A) :
  values_nonempty table = true ->
  first_match table s = Some (e, feats) -> feats <> [].
Proof.
  unfold values_nonempty, first_match. intros Hv Hf.
  apply find_some in Hf as [Hin _].
  rewrite forallb_forall in Hv. specialize (Hv _ Hin). by destruct feats.
Qed.

Lemma poss_long_values : values_nonempty (sorted_items POSS_LONG) = true.
Proof. vm_compute. reflexivity. Qed.

Lemma poss_short_values : values_nonempty (sorted_items POSS_SHORT) = true.
Proof. vm_compute. reflexivity. Qed.

Lemma strip_ud_tagged st e feats :
  feats <> [] -> tagged (strip_ud st e feats) = true.
Proof.
  intros Hf. unfold tagged, strip_ud; simpl.
  assert (set_truthy (ud st ∪ list_to_set feats) = true) as ->; [|done].
  apply set_truthy_spec. destruct feats as [|f feats]; [done|]. set_solver.
Qed.

Lemma strip_amb_tagged st e : tagged (strip_amb st e) = true.
Proof.
  unfold tagged, strip_amb; simpl.
  assert (set_truthy (amb st ∪ {["Amb=P3sg_or_Acc"]}) = true) as ->.
  { apply set_truthy_spec. set_solver. }
  by rewrite !orb_true_r.
Qed.

Lemma strip_plur_tagged st e feat : tagged (strip_plur st e feat) = true.
Proof.
  unfold tagged, strip_plur; simpl.
  assert (set_truthy (ud st ∪ {[feat]}) = true) as ->; [|done].
  apply set_truthy_spec. set_solver.
Qed.

Lemma strip_deriv_tagged st e dtag dpos :
  tagged (strip_deriv st e dtag dpos) = true.
Proof.
  unfold tagged, strip_deriv; simpl.
  assert (set_truthy (deriv st ∪ {[dtag]} ∪ {[dpos]}) = true) as ->.
  { apply set_truthy_spec. set_solver. }
  by rewrite orb_true_r.
Qed.

Lemma keep_leftover_tagged st : tagged (keep_leftover st) = true.
Proof.
  unfold tagged, keep_leftover; simpl.
  assert (set_truthy (deriv st ∪ {["Unparsed=Leftover"]}) = true) as ->.
  { apply set_truthy_spec. set_solver. }
  by rewrite orb_true_r.
Qed.

(** Every turn that progresses leaves a tag. *)
Definition tags (body : pstate -> option pstate) : Prop :=
  forall st st', body st = Some st' -> tagged st' = true.

Lemma case_body_tags : tags case_body.
Proof.
  intros st st'. unfold case_body.
  destruct (first_match _ (cur st)) as [[e f]|].
  - intros [= <-]. by apply strip_ud_tagged.
  - destruct (first_match _ (cur st)) as [[e f]|]; [|done].
    intros [= <-]. by apply strip_ud_tagged.
Qed.

Lemma poss_body_tags : tags poss_body.
Proof.
  intros st st'. unfold poss_body.
  destruct (first_match _ (cur st)) as [[e f]|] eqn:E1.
  - intros [= <-]. apply strip_ud_tagged.
    by eapply first_match_value; [apply poss_long_values|].
  - destruct (first_match (sorted_items POSS_SHORT) _) as [[e f]|] eqn:E2.
    + intros [= <-]. apply strip_ud_tagged.
      by eapply first_match_value; [apply poss_short_values|].
    + destruct (List.find _ BARE_VOWELS) as [e|]; [|done].
      intros [= <-]. apply strip_amb_tagged.
Qed.

Lemma deriv_body_tags : tags deriv_body.
Proof.
  intros st st'. unfold deriv_body.
  destruct (first_match _ (cur st)) as [[e [dtag dpos]]|]; [|done].
  intros [= <-]. apply strip_deriv_tagged.
Qed.

(** Nothing stripped yet, or a tag. *)
Definition fresh_or_tagged (st : pstate) : Prop :=
  segments_rev st = [] \/ tagged st = true.

Lemma while_progress_tagged body fuel st :
  tags body -> fresh_or_tagged st ->
  fresh_or_tagged (while_progress body fuel st).
Proof.
  intros Ht. revert st. induction fuel as [|fuel IH]; intros st Hst; simpl.
  - done.
  - destruct (truthy (cur st)); [|done].
    destruct (body st) as [st'|] eqn:E; [|done].
    apply IH. right. by eapply Ht.
Qed.

Lemma plur_step_tagged st :
  fresh_or_tagged st -> fresh_or_tagged (plur_step st).
Proof.
  unfold plur_step. destruct (first_match _ (cur st)) as [[e f]|]; [|done].
  intros _. right. apply strip_plur_tagged.
Qed.

(** The parse of a non-empty string always carries a tag: what is not
    stripped is kept under the leftover marker, and that marker is an
    entry of [deriv].  The test [bool(ud_feats or deriv or amb)] of the
    two detectors therefore holds for every suffix that is non-empty
    once lower-cased. *)
Lemma parse_passes_tagged (s : str) :
  s <> [] -> tagged (parse_passes s) = true.
Proof.
  intros Hne. pose proof (parse_passes_surface s) as Hsurf.
  revert Hsurf. unfold parse_passes.
  set (st1 := while_progress case_body _ _).
  set (st2 := while_progress poss_body _ _).
  set (st3 := plur_step _).
  set (st4 := while_progress deriv_body _ _).
  assert (H4 : fresh_or_tagged st4).
  { apply while_progress_tagged; [apply deriv_body_tags|].
    apply plur_step_tagged.
    apply while_progress_tagged; [apply poss_body_tags|].
    apply while_progress_tagged; [apply case_body_tags|].
    by left. }
  destruct (truthy (cur st4)); [intros _; apply keep_leftover_tagged|].
  intros Hsurf. destruct H4 as [Hnil|Ht]; [|done].
  rewrite Hnil in Hsurf. simpl in Hsurf. congruence.
Qed.

Lemma has_feats_nonempty `{Unicode} (suffix : str) :
  lower suffix <> [] -> has_feats (_parse_tr_suffixes_full suffix) = true.
Proof.
  intros Hne. unfold has_feats, _parse_tr_suffixes_full.
  by apply parse_passes_tagged.
Qed.

(** ** The no-apostrophe detector *)

(** Every candidate of two characters or more parses, as it stands, to a
    tag that is not the leftover marker. *)
Lemma candidates_real_tag :
  forallb (fun suf => (length suf <? 2)%nat || real_tag (parse_passes suf))
          sorted_suffixes = true.
Proof. vm_compute. reflexivity. Qed.

Lemma sorted_suffixes_all :
  forallb (fun suf => bool_decide (suf ∈ all_suffixes)) sorted_suffixes
  = true.
Proof. vm_compute. reflexivity. Qed.

Lemma sorted_suffixes_back :
  forallb (fun suf => bool_decide (suf ∈ sorted_suffixes)) all_suffixes
  = true.
Proof. vm_compute. reflexivity. Qed.

(** Sorting keeps the entries. *)
Lemma sorted_suffixes_elems (x : str) :
  In x sorted_suffixes <-> In x all_suffixes.
Proof.
  pose proof sorted_suffixes_all as H1.
  pose proof sorted_suffixes_back as H2.
  rewrite forallb_forall in H1, H2. split; intros Hx.
  - apply H1, bool_decide_eq_true in Hx. by apply list_elem_of_In.
  - apply H2, bool_decide_eq_true in Hx. by apply list_elem_of_In.
Qed.

(** A checkable form of "[f] leaves the entries of [l] as they are". *)
Lemma fixed_entries (f : str -> str) (l : list str) :
  forallb (fun x => bool_decide (f x = x)) l = true ->
  Forall (fun x => f x = x) l.
Proof.
  rewrite forallb_forall, Forall_forall.
  intros Hall x Hx%list_elem_of_In. specialize (Hall x Hx).
  by apply bool_decide_eq_true in Hall.
Qed.

Section Detector.
Context `{Unicode}.
Variable self : Annotator.

Lemma scan_suffixes_some (token tok_l : str) (cfg : Config)
  (cands : list str) (r : str * str) :
  scan_suffixes self token tok_l cfg cands = Some r ->
  exists suf, In suf cands /\ try_suffix self token tok_l cfg suf = Some r.
Proof.
  induction cands as [|suf cands IH]; simpl; [done|].
  destruct (try_suffix self token tok_l cfg suf) as [r'|] eqn:E.
  - intros [= <-]. exists suf. by split; [left|].
  - intros (suf' & Hin & Hs)%IH. exists suf'. by split; [right|].
Qed.

Lemma try_suffix_some (token tok_l : str) (cfg : Config) (suf : str)
  (base sfx : str) :
  try_suffix self token tok_l cfg suf = Some (base, sfx) ->
  (2 <= length suf)%nat /\ endswith tok_l suf = true
  /\ base = slice_to_neg (length suf) token
  /\ sfx = slice_from_neg (length suf) token
  /\ has_feats (_parse_tr_suffixes_full suf) = true.
Proof.
  unfold try_suffix.
  destruct (length suf <? 2)%nat eqn:El; [done|].
  apply Nat.ltb_ge in El.
  destruct (endswith tok_l suf); [|done].
  destruct (length (lower _) <? 2)%nat; [done|].
  destruct (negb _); [done|].
  destruct (_ && negb _); [done|].
  destruct (has_feats _) eqn:Ef; [|done]. cbn [negb].
  destruct (MIXED_STRICT cfg && _); [done|].
  by intros [= <- <-].
Qed.

(** *** The order of the candidates

    The source sorts a [set] by length; candidates of one length come in
    whatever order the set yields them.  The scan gives the same result
    for every such order. *)

(** Longest first: no entry is longer than one before it. *)
Fixpoint len_desc (l : list str) : bool :=
  match l with
  | [] => true
  | x :: r => forallb (fun y => (length y <=? length x)%nat) r && len_desc r
  end.

Lemma sorted_suffixes_len_desc : len_desc sorted_suffixes = true.
Proof. vm_compute. reflexivity. Qed.

(** [r] is what a longest accepted candidate gives. *)
Definition best (token tok_l : str) (cfg : Config) (cands : list str)
  (r : str * str) : Prop :=
  exists suf, In suf cands /\ try_suffix self token tok_l cfg suf = Some r
    /\ forall x, In x cands -> try_suffix self token tok_l cfg x <> None ->
         (length x <= length suf)%nat.

Lemma scan_suffixes_none (token tok_l : str) (cfg : Config)
  (cands : list str) :
  scan_suffixes self token tok_l cfg cands = None ->
  forall x, In x cands -> try_suffix self token tok_l cfg x = None.
Proof.
  induction cands as [|suf cands IH]; simpl; [done|].
  destruct (try_suffix self token tok_l cfg suf) eqn:E; [done|].
  intros Hn x [<-|Hx]; [done | by apply IH].
Qed.

Lemma scan_suffixes_best (token tok_l : str) (cfg : Config)
  (cands : list str) (r : str * str) :
  len_desc cands = true ->
  scan_suffixes self token tok_l cfg cands = Some r ->
  best token tok_l cfg cands r.
Proof.
  induction cands as [|suf cands IH]; simpl; [done|].
  intros [Hhd Htl]%andb_true_iff.
  destruct (try_suffix self token tok_l cfg suf) as [r'|] eqn:E.
  - intros [= <-]. exists suf. split; [by left|]. split; [done|].
    intros x [<-|Hx] _; [done|].
    rewrite forallb_forall in Hhd. by apply Nat.leb_le, Hhd.
  - intros (suf' & Hin & Hs & Hmax)%IH; [|done].
    exists suf'. split; [by right|]. split; [done|].
    intros x [<-|Hx] Hx'; [done | by apply Hmax].
Qed.

Lemma best_unique (token tok_l : str) (cfg : Config) (cands : list str)
  (r r' : str * str) :
  best token tok_l cfg cands r -> best token tok_l cfg cands r' -> r = r'.
Proof.
  intros (s1 & Hin1 & Hs1 & Hmax1) (s2 & Hin2 & Hs2 & Hmax2).
  assert (Hlen : length s1 = length s2).
  { apply Nat.le_antisymm.
    - apply Hmax2; [done | by rewrite Hs1].
    - apply Hmax1; [done | by rewrite Hs2]. }
  destruct r as [b1 x1], r' as [b2 x2].
  pose proof (try_suffix_some _ _ _ _ _ _ Hs1) as (_ & He1 & _).
  pose proof (try_suffix_some _ _ _ _ _ _ Hs2) as (_ & He2 & _).
  pose proof (endswith_same_length _ _ _ Hlen He1 He2) as ->.
  congruence.
Qed.

Lemma scan_suffixes_order (token tok_l : str) (cfg : Config)
  (order1 order2 : list str) :
  (forall x, In x order1 <-> In x order2) ->
  len_desc order1 = true -> len_desc order2 = true ->
  scan_suffixes self token tok_l cfg order1
  = scan_suffixes self token tok_l cfg order2.
Proof.
  intros Hsame Hd1 Hd2.
  destruct (scan_suffixes self token tok_l cfg order1) as [r1|] eqn:E1;
    destruct (scan_suffixes self token tok_l cfg order2) as [r2|] eqn:E2;
    [|exfalso..|done].
  - f_equal. apply (best_unique token tok_l cfg order2).
    + apply scan_suffixes_best in E1 as (suf & Hin & Hs & Hmax); [|done].
      exists suf. split; [by apply Hsame|]. split; [done|].
      intros x Hx. apply Hmax. by apply Hsame.
    + by apply scan_suffixes_best.
  - apply scan_suffixes_some in E1 as (suf & Hin & Hs).
    apply Hsame in Hin.
    by rewrite (scan_suffixes_none _ _ _ _ E2 suf Hin) in Hs.
  - apply scan_suffixes_some in E2 as (suf & Hin & Hs).
    apply Hsame in Hin.
    by rewrite (scan_suffixes_none _ _ _ _ E1 suf Hin) in Hs.
Qed.

(** Whatever order the set of suffixes is iterated in, sorting it by
    length gives a scan that agrees with the one over
    [sorted_suffixes]. *)
Lemma detect_order_irrelevant (token : str) (cfg : Config)
  (order : list str) :
  (forall x, In x order <-> In x all_suffixes) ->
  len_desc order = true ->
  scan_suffixes self token (lower token) cfg order
  = scan_suffixes self token (lower token) cfg sorted_suffixes.
Proof.
  intros Hsame Hd. apply scan_suffixes_order; [|done|].
  - intros x. rewrite Hsame. symmetry. apply sorted_suffixes_elems.
  - apply sorted_suffixes_len_desc.
Qed.

(** C6.  Whatever [_detect_mixed_no_apostrophe] accepts, it accepted on
    a candidate suffix whose parse holds a tag that is not the leftover
    marker (a case, possessive, plural, derivational or ambiguity tag):
    no candidate with a leftover-only parse gets through.  The table
    entries are lower-case letters, which [lower] leaves as they are. *)
Theorem detect_mixed_real_tag (token : str) (cfg : Config)
  (base sfx : str) :
  Forall (fun suf => lower suf = suf) all_suffixes ->
  _detect_mixed_no_apostrophe self token cfg = Some (base, sfx) ->
  exists suf,
    In suf all_suffixes /\ (2 <= length suf)%nat
    /\ endswith (lower token) suf = true
    /\ base = slice_to_neg (length suf) token
    /\ sfx = slice_from_neg (length suf) token
    /\ let '(_, ud_feats, deriv, amb) := _parse_tr_suffixes_full suf in
       exists tag, tag <> "Unparsed=Leftover"
                   /\ (tag ∈ ud_feats \/ tag ∈ deriv \/ tag ∈ amb).
Proof.
  intros Hlow. unfold _detect_mixed_no_apostrophe.
  case_bool_decide; [done|].
  intros (suf & Hin & Htry)%scan_suffixes_some.
  apply try_suffix_some in Htry as (Hlen & Hend & Hb & Hs & _).
  exists suf.
  pose proof sorted_suffixes_all as Hall.
  rewrite forallb_forall in Hall. specialize (Hall _ Hin).
  apply bool_decide_eq_true in Hall.
  split; [apply list_elem_of_In; exact Hall|].
  split; [exact Hlen|]. split; [exact Hend|].
  split; [exact Hb|]. split; [exact Hs|].
  unfold _parse_tr_suffixes_full.
  rewrite Forall_forall in Hlow. rewrite (Hlow suf Hall).
  pose proof candidates_real_tag as Hreal.
  rewrite forallb_forall in Hreal. specialize (Hreal _ Hin).
  apply orb_true_iff in Hreal as [Hshort|Hreal].
  - apply Nat.ltb_lt in Hshort. lia.
  - by apply real_tag_exists.
Qed.

End Detector.

(** ** Configuration keys that are never read *)

(** A configuration with the three keys no code path reads put back to
    their defaults. *)
Definition forget_unused (cfg : Config) : Config := {|
  FEATURE_LANGUAGE_PER_ITEM := FEATURE_LANGUAGE_PER_ITEM cfg;
  FEATURE_MATRIX_LANGUAGE := FEATURE_MATRIX_LANGUAGE cfg;
  FEATURE_EMBEDDED_LANGUAGE := FEATURE_EMBEDDED_LANGUAGE cfg;
  FEATURE_SENTENCE_ID := FEATURE_SENTENCE_ID cfg;
  NER_ENABLED := NER_ENABLED cfg;
  FT_EN_MIN := FT_EN_MIN cfg;
  FT_TR_MIN := FT_TR_MIN cfg;
  MIXED_STRICT := MIXED_STRICT cfg;
  EMIT_MIXED_SUFFIX := EMIT_MIXED_SUFFIX DEFAULTS;
  MIXED_TR_WEIGHT := MIXED_TR_WEIGHT cfg;
  MIXED_EN_WEIGHT := MIXED_EN_WEIGHT cfg;
  EMBED_MIN_COUNT := EMBED_MIN_COUNT DEFAULTS;
  EMBED_MIN_RATIO := EMBED_MIN_RATIO DEFAULTS;
|}.

(** The dict a call of [annotate] merges into the defaults: [None] and
    the empty dict set nothing. *)
Definition no_user_cfg : UserCfg :=
  {| set_FEATURE_LANGUAGE_PER_ITEM := None;
     set_FEATURE_MATRIX_LANGUAGE := None;
     set_FEATURE_EMBEDDED_LANGUAGE := None;
     set_FEATURE_SENTENCE_ID := None;
     set_NER_ENABLED := None;
     set_FT_EN_MIN := None;
     set_FT_TR_MIN := None;
     set_MIXED_STRICT := None;
     set_EMIT_MIXED_SUFFIX := None;
     set_MIXED_TR_WEIGHT := None;
     set_MIXED_EN_WEIGHT := None;
     set_EMBED_MIN_COUNT := None;
     set_EMBED_MIN_RATIO := None |}.

Definition settings (user_cfg : option UserCfg) : UserCfg :=
  default no_user_cfg user_cfg.

(** Two user configurations that differ at most in [EMIT_MIXED_SUFFIX],
    [EMBED_MIN_COUNT] and [EMBED_MIN_RATIO]. *)
Definition differ_in_unused_only (u1 u2 : UserCfg) : Prop :=
  set_FEATURE_LANGUAGE_PER_ITEM u1 = set_FEATURE_LANGUAGE_PER_ITEM u2
  /\ set_FEATURE_MATRIX_LANGUAGE u1 = set_FEATURE_MATRIX_LANGUAGE u2
  /\ set_FEATURE_EMBEDDED_LANGUAGE u1 = set_FEATURE_EMBEDDED_LANGUAGE u2
  /\ set_FEATURE_SENTENCE_ID u1 = set_FEATURE_SENTENCE_ID u2
  /\ set_NER_ENABLED u1 = set_NER_ENABLED u2
  /\ set_FT_EN_MIN u1 = set_FT_EN_MIN u2
  /\ set_FT_TR_MIN u1 = set_FT_TR_MIN u2
  /\ set_MIXED_STRICT u1 = set_MIXED_STRICT u2
  /\ set_MIXED_TR_WEIGHT u1 = set_MIXED_TR_WEIGHT u2
  /\ set_MIXED_EN_WEIGHT u1 = set_MIXED_EN_WEIGHT u2.

Lemma forget_unused_update (u1 u2 : UserCfg) :
  differ_in_unused_only u1 u2 ->
  forget_unused (cfg_update DEFAULTS u1)
  = forget_unused (cfg_update DEFAULTS u2).
Proof.
  destruct u1, u2. unfold differ_in_unused_only, forget_unused, cfg_update.
  cbn. intros (-> & -> & -> & -> & -> & -> & -> & -> & -> & ->).
  reflexivity.
Qed.

Section Unused.
Context `{Unicode}.
Variable self : Annotator.

Lemma choose_label_forget (t : str) (cfg : Config) :
  _choose_label self t (forget_unused cfg) = _choose_label self t cfg.
Proof. reflexivity. Qed.

Lemma try_suffix_forget (token tok_l : str) (cfg : Config) (suf : str) :
  try_suffix self token tok_l (forget_unused cfg) suf
  = try_suffix self token tok_l cfg suf.
Proof. reflexivity. Qed.

Lemma scan_suffixes_forget (token tok_l : str) (cfg : Config)
  (cands : list str) :
  scan_suffixes self token tok_l (forget_unused cfg) cands
  = scan_suffixes self token tok_l cfg cands.
Proof.
  induction cands as [|suf cands IH]; simpl; [done|].
  by rewrite try_suffix_forget, IH.
Qed.

Lemma detect_forget (token : str) (cfg : Config) :
  _detect_mixed_no_apostrophe self token (forget_unused cfg)
  = _detect_mixed_no_apostrophe self token cfg.
Proof.
  unfold _detect_mixed_no_apostrophe. by rewrite scan_suffixes_forget.
Qed.

Lemma apostrophe_path_forget (tok : str) (cfg : Config) :
  apostrophe_path self tok (forget_unused cfg)
  = apostrophe_path self tok cfg.
Proof. reflexivity. Qed.

Lemma decide_forget (labels : list string) (cfg : Config) :
  _decide_matrix_embed labels (forget_unused cfg)
  = _decide_matrix_embed labels cfg.
Proof. reflexivity. Qed.

Lemma token_step_forget (ne_map : gmap str string) (cfg : Config)
  (tok : str) :
  token_step self ne_map (forget_unused cfg) tok
  = token_step self ne_map cfg tok.
Proof.
  unfold token_step.
  rewrite detect_forget, apostrophe_path_forget, !choose_label_forget.
  reflexivity.
Qed.

Lemma run_tokens_forget (ne_map : gmap str string) (cfg : Config)
  (tokens : list str) :
  run_tokens self ne_map (forget_unused cfg) tokens
  = run_tokens self ne_map cfg tokens.
Proof.
  unfold run_tokens.
  set (step := fun (c : Config) '(sent_rows, labels_in_sent) tok =>
    let '(rows, labels) := token_step self ne_map c tok in
    (sent_rows ++ rows, labels_in_sent ++ labels)).
  change (fold_left (step (forget_unused cfg)) tokens ([], [])
          = fold_left (step cfg) tokens ([], [])).
  assert (Hstep : forall acc tok,
            step (forget_unused cfg) acc tok = step cfg acc tok).
  { intros [rows labels] tok. unfold step.
    rewrite token_step_forget. reflexivity. }
  generalize (@nil str, @nil string). clearbody step.
  induction tokens as [|tok tokens IH]; intros acc; cbn [fold_left].
  - reflexivity.
  - rewrite Hstep. apply IH.
Qed.

Lemma annotate_lines_forget (cfg : Config) (lines : list str)
  (sent_idx : N) :
  annotate_lines self (forget_unused cfg) lines sent_idx
  = annotate_lines self cfg lines sent_idx.
Proof.
  revert sent_idx. induction lines as [|raw rest IH]; intros sent_idx.
  - done.
  - cbn [annotate_lines].
    destruct (negb (truthy (strip (rstrip_nl raw)))); [by rewrite IH|].
    rewrite run_tokens_forget, IH.
    change (NER_ENABLED (forget_unused cfg)) with (NER_ENABLED cfg).
    destruct (run_tokens _ _ _ _) as [sent_rows labels_in_sent].
    rewrite decide_forget. reflexivity.
Qed.

(** C10.  Two configurations that differ only in [EMIT_MIXED_SUFFIX],
    [EMBED_MIN_COUNT] and [EMBED_MIN_RATIO] give the same output on
    every text: no path of [annotate] reads these keys. *)
Theorem annotate_ignores_unused_keys (text : str)
  (user_cfg1 user_cfg2 : option UserCfg) :
  differ_in_unused_only (settings user_cfg1) (settings user_cfg2) ->
  annotate self text user_cfg1 = annotate self text user_cfg2.
Proof.
  intros Hd. unfold annotate.
  assert (Hcfg : forall c : option UserCfg,
    match c with Some user => cfg_update DEFAULTS user | None => DEFAULTS end
    = cfg_update DEFAULTS (settings c)) by (by intros []).
  rewrite !Hcfg.
  rewrite <- (annotate_lines_forget (cfg_update DEFAULTS (settings user_cfg1))).
  rewrite <- (annotate_lines_forget (cfg_update DEFAULTS (settings user_cfg2))).
  by rewrite (forget_unused_update _ _ Hd).
Qed.

End Unused.

(** * Further properties of the pipeline *)

(** ** What [tokenize] keeps and what its tokens look like *)

Section TokenShape.
Context `{Unicode}.

Lemma word_token_app (s t rest : str) :
  word_token s = (t, rest) -> t ++ rest = s.
Proof.
  unfold word_token.
  destruct (span_word s) as [w1 r1] eqn:E1.
  apply span_word_spec in E1 as [<- _].
  destruct r1 as [|c r].
  - destruct (span_word []) as [w2 r3] eqn:E2.
    apply span_word_spec in E2 as [E2 _]. intros [= <- <-].
    rewrite <- !app_assoc. simpl. by rewrite E2.
  - destruct (is_apos c).
    + destruct (span_word r) as [w2 r3] eqn:E2.
      apply span_word_spec in E2 as [<- _]. intros [= <- <-].
      by rewrite <- !app_assoc.
    + destruct (span_word (c :: r)) as [w2 r3] eqn:E2.
      apply span_word_spec in E2 as [E2 _]. intros [= <- <-].
      rewrite <- !app_assoc. simpl. by rewrite E2.
Qed.

Lemma filter_kept_all (t : str) :
  forallb kept t = true -> List.filter kept t = t.
Proof.
  induction t as [|c r IH]; simpl; [done|].
  intros [-> Hr]%andb_true_iff. by rewrite IH.
Qed.

Lemma findall_tokens_concat (fuel : nat) :
  forall s, (length s <= fuel)%nat ->
    concat (findall_tokens true fuel s) = List.filter kept s.
Proof.
  induction fuel as [|fuel IH]; intros s Hlen.
  - destruct s; [done | simpl in Hlen; lia].
  - destruct s as [|c r]; [done|]. simpl in Hlen.
    cbn [findall_tokens].
    destruct (is_word c) eqn:Ec.
    + destruct (word_token (c :: r)) as [t rest] eqn:E.
      pose proof (word_token_nonempty _ _ _ _ Ec E) as Hne.
      pose proof (word_token_app _ _ _ E) as Happ.
      apply word_token_spec in E as (Hk & _ & Hsum). simpl in Hsum.
      assert (length t <> 0)%nat by (by destruct t).
      cbn [concat]. rewrite IH by lia.
      rewrite <- Happ, List.filter_app. by rewrite (filter_kept_all _ Hk).
    + cbn [andb]. destruct (is_apos c) eqn:Ea.
      * cbn [concat]. rewrite IH by lia. simpl. unfold kept at 2.
        by rewrite Ec, Ea.
      * rewrite IH by lia. simpl. unfold kept at 2. by rewrite Ec, Ea.
Qed.

(** X1.  Tokenising loses exactly the characters that are neither word
    characters nor apostrophes: the tokens of a text, put together again,
    are the text as [clean_token] leaves it. *)
Theorem tokenize_concat (text : str) :
  concat (tokenize text) = clean_token text.
Proof. apply findall_tokens_concat. lia. Qed.

(** The two shapes of a match of the token pattern. *)
Definition token_shape (tok : str) : Prop :=
  (exists c, is_apos c = true /\ is_word c = false /\ tok = [c])
  \/ (exists w1 ap w2,
        tok = w1 ++ ap ++ w2 /\ w1 <> []
        /\ forallb is_word w1 = true /\ forallb is_word w2 = true
        /\ (ap = [] /\ w2 = [] \/ exists c, is_apos c = true /\ ap = [c])).

Lemma span_word_stop (s w t : str) :
  span_word s = (w, t) ->
  match t with c :: _ => is_word c = false | [] => True end.
Proof.
  revert w t. induction s as [|c r IH]; intros w t; simpl.
  - by intros [= <- <-].
  - destruct (is_word c) eqn:Ec.
    + destruct (span_word r) as [w' t'] eqn:E. intros [= <- <-].
      by eapply IH.
    + by intros [= <- <-].
Qed.

Lemma span_word_nil_of_stop (s : str) :
  match s with c :: _ => is_word c = false | [] => True end ->
  span_word s = ([], s).
Proof. destruct s as [|c r]; [done|]. simpl. by intros ->. Qed.

Lemma word_token_shape (c : char) (r t rest : str) :
  is_word c = true -> word_token (c :: r) = (t, rest) -> token_shape t.
Proof.
  intros Hc. unfold word_token.
  destruct (span_word (c :: r)) as [w1 r1] eqn:E1.
  assert (Hw1 : w1 <> []).
  { simpl in E1. rewrite Hc in E1. destruct (span_word r).
    by injection E1 as <- <-. }
  pose proof (span_word_stop _ _ _ E1) as Hstop.
  apply span_word_spec in E1 as [_ Hall1].
  destruct r1 as [|a r'].
  - simpl. intros [= <- <-]. right. exists w1, [], [].
    repeat split; try done. by left.
  - destruct (is_apos a) eqn:Ea.
    + destruct (span_word r') as [w2 r3] eqn:E2.
      apply span_word_spec in E2 as [_ Hall2]. intros [= <- <-].
      right. exists w1, [a], w2. repeat split; try done.
      right. by exists a.
    + rewrite (span_word_nil_of_stop (a :: r') Hstop).
      intros [= <- <-]. right. exists w1, [], [].
      repeat split; try done. by left.
Qed.

(** X2.  Every token of [tokenize] is either one apostrophe or a run of
    word characters, optionally followed by one apostrophe and a further
    run of word characters: a token never starts with an apostrophe
    unless it is that apostrophe alone, and never holds two. *)
Theorem tokenize_shape (text tok : str) :
  In tok (tokenize text) -> token_shape tok.
Proof.
  unfold tokenize. generalize (length text) as fuel. intros fuel.
  revert text. induction fuel as [|fuel IH]; intros text; simpl; [done|].
  destruct text as [|c r]; [done|].
  destruct (is_word c) eqn:Ec.
  - destruct (word_token (c :: r)) as [t rest] eqn:E.
    intros [<-|Hin]; [by eapply word_token_shape | by eapply IH].
  - cbn [andb]. destruct (is_apos c) eqn:Ea.
    + intros [<-|Hin]; [|by eapply IH]. left. by exists c.
    + apply IH.
Qed.

End TokenShape.

(** ** [is_other_token] on the tokens [annotate] classifies *)

Section TokenOther.
Context `{Unicode}.

(** The marks the URL, mention, hashtag and number patterns need: line
    feed, [#], [,], [-], [.], [/], [:] and [@].  None of them is a word
    character in Unicode. *)
Definition MARKS : list char := [10; 35; 44; 45; 46; 47; 58; 64]%N.

Definition marks_are_not_words : Prop :=
  forall c, In c MARKS -> is_word c = false.

Lemma kept_not_mark (c : char) :
  marks_are_not_words -> kept c = true -> ~ In c MARKS.
Proof.
  intros Hm Hk Hin. unfold kept in Hk. rewrite (Hm c Hin) in Hk.
  unfold MARKS in Hin. simpl in Hin.
  by destruct Hin as [<-|[<-|[<-|[<-|[<-|[<-|[<-|[<-|[]]]]]]]]].
Qed.

Ltac split_scrutinee H :=
  repeat match type of H with
         | context [match ?x with _ => _ end] =>
           is_var x; destruct x; simpl in H; try discriminate H
         end.

Lemma URL_RE_match_marks (tok : str) :
  URL_RE_match tok = true -> In 58%N tok \/ In 46%N tok.
Proof.
  unfold URL_RE_match. intros [Hm|Hm]%orb_true_iff.
  - left. destruct tok as [|h [|t1 [|t2 [|p r]]]]; try discriminate Hm.
    apply andb_true_iff in Hm as [_ Hm].
    do 4 right.
    destruct r as [|s r0]; [discriminate Hm|].
    destruct (ci 115 s).
    + right. split_scrutinee Hm. simpl. tauto.
    + split_scrutinee Hm. simpl. tauto.
  - right. destruct tok as [|w1 [|w2 [|w3 [|d r]]]]; try discriminate Hm.
    do 3 right. split_scrutinee Hm. simpl. tauto.
Qed.

Lemma MENTION_RE_match_mark (tok : str) :
  MENTION_RE_match tok = true -> In 64%N tok.
Proof.
  unfold MENTION_RE_match. intros Hm.
  destruct tok as [|a r]; [discriminate Hm|].
  split_scrutinee Hm. simpl. tauto.
Qed.

Lemma HASHTAG_RE_match_mark (tok : str) :
  HASHTAG_RE_match tok = true -> In 35%N tok.
Proof.
  unfold HASHTAG_RE_match. intros Hm.
  destruct tok as [|a r]; [discriminate Hm|].
  split_scrutinee Hm. simpl. tauto.
Qed.

Lemma is_num_sep_mark (c : char) : is_num_sep c = true -> In c MARKS.
Proof.
  unfold is_num_sep, MARKS. rewrite !orb_true_iff, !N.eqb_eq. simpl.
  intuition congruence.
Qed.

Lemma numeric_from_kept (tok : str) (need_digit : bool) :
  marks_are_not_words -> forallb kept tok = true ->
  numeric_from need_digit tok
  = forallb is_digit tok && (negb need_digit || truthy tok).
Proof.
  intros Hm. revert need_digit.
  induction tok as [|c r IH]; intros need_digit; simpl.
  - intros _. by destruct need_digit.
  - intros [Hc Hr]%andb_true_iff.
    pose proof (kept_not_mark c Hm Hc) as Hnm.
    destruct (is_digit c) eqn:Ed.
    + rewrite IH by done. simpl. rewrite orb_true_r.
      by rewrite andb_true_r.
    + destruct need_digit; [done|].
      destruct (is_num_sep c) eqn:Es.
      { by apply is_num_sep_mark in Es. }
      destruct (N.eqb_spec c 10) as [->|_]; [|done].
      exfalso. apply Hnm. unfold MARKS. simpl. tauto.
Qed.

(** X3.  On the tokens [annotate] classifies, the URL, mention and
    hashtag patterns never match and the number pattern matches digit
    runs only, because [tokenize] has already dropped the marks they
    need: such a token is OTHER exactly when it is all digits, holds a
    code point from U+10000 on, or is made of underscores and
    apostrophes only. *)
Theorem tokenize_other (text tok : str) :
  marks_are_not_words ->
  In tok (tokenize text) ->
  URL_RE_match tok = false /\ MENTION_RE_match tok = false
  /\ HASHTAG_RE_match tok = false
  /\ NUMERIC_RE_match tok = forallb is_digit tok
  /\ is_other_token tok
     = forallb is_digit tok || EMOJI_RE_search tok || nonword_fullmatch tok.
Proof.
  intros Hm Hin. apply findall_tokens_kept in Hin as [Hne Hk].
  assert (Hno : forall c, In c MARKS -> ~ In c tok).
  { intros c Hc Hct. rewrite forallb_forall in Hk.
    by apply (kept_not_mark c Hm (Hk c Hct)). }
  assert (Hurl : URL_RE_match tok = false).
  { destruct (URL_RE_match tok) eqn:E; [|done].
    apply URL_RE_match_marks in E as [E|E]; exfalso;
      eapply Hno; try exact E; unfold MARKS; simpl; tauto. }
  assert (Hmen : MENTION_RE_match tok = false).
  { destruct (MENTION_RE_match tok) eqn:E; [|done].
    apply MENTION_RE_match_mark in E. exfalso.
    eapply Hno; try exact E; unfold MARKS; simpl; tauto. }
  assert (Hhash : HASHTAG_RE_match tok = false).
  { destruct (HASHTAG_RE_match tok) eqn:E; [|done].
    apply HASHTAG_RE_match_mark in E. exfalso.
    eapply Hno; try exact E; unfold MARKS; simpl; tauto. }
  assert (Hnum : NUMERIC_RE_match tok = forallb is_digit tok).
  { unfold NUMERIC_RE_match. rewrite numeric_from_kept by done.
    destruct tok; [done|]. simpl. by rewrite andb_true_r. }
  repeat split; try done.
  unfold is_other_token. rewrite Hurl, Hmen, Hhash, Hnum.
  destruct tok; [done|]. cbn [truthy negb orb].
  destruct (forallb is_digit _); [done|].
  destruct (EMOJI_RE_search _); [done|].
  by destruct (nonword_fullmatch _).
Qed.

End TokenOther.

(** ** Invariants of the suffix parser *)

Lemma while_progress_inv (P : pstate -> Prop) body fuel st :
  (forall st st', P st -> body st = Some st' -> P st') ->
  P st -> P (while_progress body fuel st).
Proof.
  intros Hstep. revert st. induction fuel as [|fuel IH]; intros st Hst; simpl.
  - done.
  - destruct (truthy (cur st)); [|done].
    destruct (body st) as [st'|] eqn:E; [|done].
    apply IH. by eapply Hstep.
Qed.

(** The tags the case, buffer, plural and possessive tables hold, and
    the tags the derivational table holds. *)
Definition UD_TAGS : gset string :=
  list_to_set (map snd CASE_ENDINGS ++ map snd BUFFER_N_ACC
               ++ map snd BUFFER_N_DAT ++ map snd PLUR
               ++ concat (map snd POSS_LONG) ++ concat (map snd POSS_SHORT)).

Definition DERIV_TAGS : gset string :=
  list_to_set (concat (map (fun it => [it.2.1; it.2.2]) DERIV_SUFFIXES)).

Definition case_table_ok (table : list (str * string)) : bool :=
  forallb (fun it => truthy it.1 && bool_decide (it.1 ∈ all_suffixes)
                     && bool_decide (it.2 ∈ UD_TAGS)) table.

Definition poss_table_ok (table : list (str * list string)) : bool :=
  forallb (fun it => truthy it.1 && bool_decide (it.1 ∈ all_suffixes)
                     && bool_decide (list_to_set it.2 ⊆ UD_TAGS)) table.

(** In the derivational table a tag goes with one part of speech, and no
    part-of-speech tag is a derivation tag. *)
Definition deriv_table_ok (table : list (str * (string * string))) : bool :=
  forallb (fun it =>
    truthy it.1 && bool_decide (it.1 ∈ all_suffixes)
    && bool_decide (it.2.1 ∈ DERIV_TAGS) && bool_decide (it.2.2 ∈ DERIV_TAGS)
    && forallb (fun it' =>
         implb (String.eqb it'.2.1 it.2.1) (String.eqb it'.2.2 it.2.2)
         && negb (String.eqb it'.2.1 it.2.2)) DERIV_SUFFIXES) table.

Lemma buffer_table_ok :
  case_table_ok (sorted_items (BUFFER_N_ACC ++ BUFFER_N_DAT)) = true.
Proof. vm_compute. reflexivity. Qed.

Lemma case_table_ok_case : case_table_ok (sorted_items CASE_ENDINGS) = true.
Proof. vm_compute. reflexivity. Qed.

Lemma plur_table_ok : case_table_ok (sorted_items PLUR) = true.
Proof. vm_compute. reflexivity. Qed.

Lemma poss_long_table_ok : poss_table_ok (sorted_items POSS_LONG) = true.
Proof. vm_compute. reflexivity. Qed.

Lemma poss_short_table_ok : poss_table_ok (sorted_items POSS_SHORT) = true.
Proof. vm_compute. reflexivity. Qed.

Lemma deriv_table_ok_sorted :
  deriv_table_ok (sorted_items DERIV_SUFFIXES) = true.
Proof. vm_compute. reflexivity. Qed.

Lemma bare_vowels_registered :
  forallb (fun e => bool_decide (e ∈ all_suffixes)) BARE_VOWELS = true.
Proof. vm_compute. reflexivity. Qed.

Lemma all_suffixes_nonempty :
  forallb (fun e : str => truthy e) all_suffixes = true.
Proof. vm_compute. reflexivity. Qed.

Lemma tag_vocabularies_apart :
  bool_decide (UD_TAGS ## DERIV_TAGS ∪ {["Unparsed=Leftover"]}) = true
  /\ bool_decide ("Amb=P3sg_or_Acc" ∉ UD_TAGS) = true
  /\ bool_decide ("Amb=P3sg_or_Acc" ∉ DERIV_TAGS ∪ {["Unparsed=Leftover"]})
     = true
  /\ bool_decide ("Unparsed=Leftover" ∉ DERIV_TAGS) = true.
Proof. vm_compute. tauto. Qed.

(** The tags of the tables, by name. *)
Lemma UD_TAGS_names (tag : string) :
  tag ∈ UD_TAGS ->
  In tag ["Case=Abl"; "Case=Loc"; "Case=Gen"; "Case=Ins"; "Case=Equ";
          "Case=Acc"; "Case=Dat"; "Number=Plur"; "Poss=Yes";
          "Person[psor]=1"; "Person[psor]=2"; "Person[psor]=3";
          "Number[psor]=Sing"; "Number[psor]=Plur"].
Proof.
  unfold UD_TAGS. rewrite elem_of_list_to_set, list_elem_of_In.
  set (names := ["Case=Abl"; "Case=Loc"; "Case=Gen"; "Case=Ins";
                 "Case=Equ"; "Case=Acc"; "Case=Dat"; "Number=Plur";
                 "Poss=Yes"; "Person[psor]=1"; "Person[psor]=2";
                 "Person[psor]=3"; "Number[psor]=Sing";
                 "Number[psor]=Plur"]).
  set (tags := _ ++ _).
  assert (Hall : forallb (fun t => existsb (String.eqb t) names) tags = true)
    by (vm_compute; reflexivity).
  intros Hin. rewrite forallb_forall in Hall. specialize (Hall _ Hin).
  apply existsb_exists in Hall as (x & Hx & Heq).
  apply String.eqb_eq in Heq. by subst x.
Qed.

Lemma DERIV_TAGS_names (tag : string) :
  tag ∈ DERIV_TAGS ->
  In tag ["Deriv=LIK"; "Deriv=SAL"; "Deriv=LI"; "Deriv=SIZ"; "Deriv=CI";
          "DerivPOS=NOUN"; "DerivPOS=ADJ"].
Proof.
  unfold DERIV_TAGS. rewrite elem_of_list_to_set, list_elem_of_In.
  set (names := ["Deriv=LIK"; "Deriv=SAL"; "Deriv=LI"; "Deriv=SIZ";
                 "Deriv=CI"; "DerivPOS=NOUN"; "DerivPOS=ADJ"]).
  set (tags := concat _).
  assert (Hall : forallb (fun t => existsb (String.eqb t) names) tags = true)
    by (vm_compute; reflexivity).
  intros Hin. rewrite forallb_forall in Hall. specialize (Hall _ Hin).
  apply existsb_exists in Hall as (x & Hx & Heq).
  apply String.eqb_eq in Heq. by subst x.
Qed.

Section ParserInvariants.
#[local] Opaque UD_TAGS DERIV_TAGS all_suffixes.

Lemma first_match_in {A} (table : list (str * A)) (s e : str) (f : A)
  (ok : str * A -> bool) :
  forallb ok table = true -> first_match table s = Some (e, f) ->
  ok (e, f) = true /\ e `suffix_of` s.
Proof.
  unfold first_match. intros Hok Hf.
  apply find_some in Hf as [Hin Hend]. rewrite forallb_forall in Hok.
  split; [by apply Hok | by apply endswith_suffix].
Qed.

(** What the loops keep true of the state. *)
Record parse_inv (st : pstate) : Prop := {
  inv_segments : Forall (fun seg => seg ∈ all_suffixes) (segments_rev st);
  inv_ud : ud st ⊆ UD_TAGS;
  inv_deriv : deriv st ⊆ DERIV_TAGS;
  inv_amb : amb st ⊆ {["Amb=P3sg_or_Acc"]};
  inv_paired : forall e dtag dpos,
    In (e, (dtag, dpos)) DERIV_SUFFIXES ->
    dtag ∈ deriv st -> dpos ∈ deriv st;
}.

Lemma parse_inv_start (s : str) : parse_inv (PState s [] ∅ ∅ ∅).
Proof.
  constructor; cbn [segments_rev ud deriv amb].
  - constructor.
  - apply empty_subseteq.
  - apply empty_subseteq.
  - apply empty_subseteq.
  - intros e dtag dpos _ Hin. by apply not_elem_of_empty in Hin.
Qed.

Lemma strip_case_inv (table : list (str * string)) st e feat :
  case_table_ok table = true ->
  first_match table (cur st) = Some (e, feat) ->
  parse_inv st -> parse_inv (strip_ud st e [feat]).
Proof.
  intros Hok Hf [Hseg Hud Hder Hamb Hpair].
  apply (first_match_in _ _ _ _ _ Hok) in Hf as [Hit Hsuf].
  cbn [fst snd] in Hit.
  apply andb_true_iff in Hit as [[Hne Hreg]%andb_true_iff Htag].
  apply bool_decide_eq_true in Hreg, Htag.
  constructor; cbn [strip_ud segments_rev ud deriv amb];
    [| |exact Hder|exact Hamb|exact Hpair].
  - apply Forall_app. split; [exact Hseg|]. constructor; [|constructor].
    rewrite slice_from_neg_ending;
      [exact Hreg | intros ->; discriminate Hne | exact Hsuf].
  - apply union_least; [exact Hud|].
    rewrite list_to_set_cons, list_to_set_nil, (right_id_L ∅ (∪)).
    by apply singleton_subseteq_l.
Qed.

Lemma strip_poss_inv (table : list (str * list string)) st e feats :
  poss_table_ok table = true ->
  first_match table (cur st) = Some (e, feats) ->
  parse_inv st -> parse_inv (strip_ud st e feats).
Proof.
  intros Hok Hf [Hseg Hud Hder Hamb Hpair].
  apply (first_match_in _ _ _ _ _ Hok) in Hf as [Hit Hsuf].
  cbn [fst snd] in Hit.
  apply andb_true_iff in Hit as [[Hne Hreg]%andb_true_iff Htag].
  apply bool_decide_eq_true in Hreg, Htag.
  constructor; cbn [strip_ud segments_rev ud deriv amb];
    [| |exact Hder|exact Hamb|exact Hpair].
  - apply Forall_app. split; [exact Hseg|]. constructor; [|constructor].
    rewrite slice_from_neg_ending;
      [exact Hreg | intros ->; discriminate Hne | exact Hsuf].
  - apply union_least; [exact Hud | exact Htag].
Qed.

Lemma case_body_inv st st' :
  parse_inv st -> case_body st = Some st' -> parse_inv st'.
Proof.
  intros Hinv. unfold case_body.
  destruct (first_match _ (cur st)) as [[e f]|] eqn:E1.
  - intros [= <-]. by eapply strip_case_inv; [apply buffer_table_ok|..].
  - destruct (first_match (sorted_items CASE_ENDINGS) _) as [[e f]|] eqn:E2;
      [|done].
    intros [= <-]. by eapply strip_case_inv; [apply case_table_ok_case|..].
Qed.

Lemma poss_body_inv st st' :
  parse_inv st -> poss_body st = Some st' -> parse_inv st'.
Proof.
  intros Hinv. unfold poss_body.
  destruct (first_match _ (cur st)) as [[e f]|] eqn:E1.
  - intros [= <-]. by eapply strip_poss_inv; [apply poss_long_table_ok|..].
  - destruct (first_match (sorted_items POSS_SHORT) _) as [[e f]|] eqn:E2.
    + intros [= <-].
      by eapply strip_poss_inv; [apply poss_short_table_ok|..].
    + destruct (List.find _ BARE_VOWELS) as [e|] eqn:E3; [|done].
      intros [= <-]. destruct Hinv as [Hseg Hud Hder Hamb Hpair].
      apply find_some in E3 as [Hin _].
      pose proof bare_vowels_registered as Hreg.
      rewrite forallb_forall in Hreg. specialize (Hreg _ Hin).
      apply bool_decide_eq_true in Hreg.
      constructor; cbn [strip_amb segments_rev ud deriv amb];
        [|exact Hud|exact Hder| |exact Hpair].
      * apply Forall_app. split; [exact Hseg|].
        constructor; [exact Hreg | constructor].
      * apply union_least; [exact Hamb | reflexivity].
Qed.

Lemma plur_step_inv st : parse_inv st -> parse_inv (plur_step st).
Proof.
  intros Hinv. unfold plur_step.
  destruct (first_match _ (cur st)) as [[e f]|] eqn:E1; [|done].
  destruct Hinv as [Hseg Hud Hder Hamb Hpair].
  apply (first_match_in _ _ _ _ _ plur_table_ok) in E1 as [Hit Hsuf].
  cbn [fst snd] in Hit.
  apply andb_true_iff in Hit as [[Hne Hreg]%andb_true_iff Htag].
  apply bool_decide_eq_true in Hreg, Htag.
  constructor; cbn [strip_plur segments_rev ud deriv amb];
    [| |exact Hder|exact Hamb|exact Hpair].
  - apply Forall_app. split; [exact Hseg|].
    constructor; [exact Hreg | constructor].
  - apply union_least; [exact Hud | by apply singleton_subseteq_l].
Qed.

Lemma deriv_body_inv st st' :
  parse_inv st -> deriv_body st = Some st' -> parse_inv st'.
Proof.
  intros [Hseg Hud Hder Hamb Hpair]. unfold deriv_body.
  destruct (first_match _ (cur st)) as [[e [dtag dpos]]|] eqn:E1; [|done].
  intros [= <-].
  apply (first_match_in _ _ _ _ _ deriv_table_ok_sorted) in E1 as [Hit Hsuf].
  cbn [fst snd] in Hit.
  apply andb_true_iff in Hit as [Hit Hfun].
  apply andb_true_iff in Hit as [Hit Hpos].
  apply andb_true_iff in Hit as [[Hne Hreg]%andb_true_iff Htag].
  apply bool_decide_eq_true in Hreg, Htag, Hpos.
  rewrite forallb_forall in Hfun.
  constructor; cbn [strip_deriv segments_rev ud deriv amb];
    [| exact Hud | | exact Hamb |].
  - apply Forall_app. split; [exact Hseg|].
    constructor; [exact Hreg | constructor].
  - apply union_least; [apply union_least; [exact Hder|]|];
      by apply singleton_subseteq_l.
  - intros e' dtag' dpos' Hin'. specialize (Hfun _ Hin').
    cbn [fst snd] in Hfun.
    apply andb_true_iff in Hfun as [Himp Hneq].
    rewrite !elem_of_union, !elem_of_singleton.
    intros [[Hold| ->]| ->].
    + left. left. by eapply Hpair.
    + rewrite String.eqb_refl in Himp. simpl in Himp.
      apply String.eqb_eq in Himp as ->. by right.
    + by rewrite String.eqb_refl in Hneq.
Qed.

(** The state after the fourth pass. *)
Definition before_leftover (s : str) : pstate :=
  let st0 := PState s [] ∅ ∅ ∅ in
  let st1 := while_progress case_body (length (cur st0)) st0 in
  let st2 := while_progress poss_body (length (cur st1)) st1 in
  let st3 := plur_step st2 in
  while_progress deriv_body (length (cur st3)) st3.

Lemma parse_passes_before (s : str) :
  parse_passes s
  = if truthy (cur (before_leftover s))
    then keep_leftover (before_leftover s) else before_leftover s.
Proof. reflexivity. Qed.

Lemma before_leftover_inv (s : str) : parse_inv (before_leftover s).
Proof.
  unfold before_leftover.
  apply while_progress_inv; [apply deriv_body_inv|].
  apply plur_step_inv.
  apply while_progress_inv; [apply poss_body_inv|].
  apply while_progress_inv; [apply case_body_inv|].
  apply parse_inv_start.
Qed.

Lemma before_leftover_exit (s : str) :
  cur (before_leftover s) = [] \/ deriv_body (before_leftover s) = None.
Proof.
  unfold before_leftover.
  apply (while_progress_exit deriv_body deriv_body_shrinks). lia.
Qed.

End ParserInvariants.

Lemma insert_by_len_In {A} (x y : str * A) (l : list (str * A)) :
  In x (insert_by_len y l) <-> x = y \/ In x l.
Proof.
  induction l as [|z l IH]; simpl.
  - intuition congruence.
  - destruct (length z.1 <? length y.1)%nat; simpl; [intuition congruence|].
    rewrite IH. intuition congruence.
Qed.

(** Sorting a table keeps its entries. *)
Lemma sorted_items_In {A} (x : str * A) (l : list (str * A)) :
  In x (sorted_items l) <-> In x l.
Proof.
  unfold sorted_items.
  enough (Hgen : forall acc,
    In x (fold_left (fun acc y => insert_by_len y acc) l acc)
    <-> In x acc \/ In x l).
  { rewrite Hgen. simpl. tauto. }
  induction l as [|y l IH]; intros acc; simpl; [tauto|].
  rewrite IH, insert_by_len_In. intuition congruence.
Qed.

Lemma concat_nonempty_length (segs : list str) :
  Forall (fun seg : str => seg <> []) segs ->
  (length segs <= length (concat segs))%nat.
Proof.
  induction 1 as [|seg segs Hne _ IH]; simpl; [done|].
  rewrite length_app. destruct seg; [done|]. simpl. lia.
Qed.

Lemma deriv_table_ok_raw : deriv_table_ok DERIV_SUFFIXES = true.
Proof. vm_compute. reflexivity. Qed.

Section ParserFacts.
Context `{Unicode}.
#[local] Opaque UD_TAGS DERIV_TAGS all_suffixes.

Lemma registered_nonempty (seg : str) : seg ∈ all_suffixes -> seg <> [].
Proof.
  intros Hin%list_elem_of_In. pose proof all_suffixes_nonempty as Hall.
  rewrite forallb_forall in Hall. specialize (Hall _ Hin).
  intros ->. discriminate Hall.
Qed.

(** X4.  No segment the parser returns is empty, so there are at most as
    many segments as the lower-cased suffix has characters, and none at
    all exactly when that string is empty. *)
Theorem parse_segments_nonempty (suffix : str) :
  let '(segments, _, _, _) := _parse_tr_suffixes_full suffix in
  Forall (fun seg => seg <> []) segments
  /\ (length segments <= length (lower suffix))%nat
  /\ (segments = [] <-> lower suffix = []).
Proof.
  unfold _parse_tr_suffixes_full.
  pose proof (parse_passes_surface (lower suffix)) as Hsurf.
  set (segments := rev (segments_rev (parse_passes (lower suffix)))) in *.
  assert (Hne : Forall (fun seg : str => seg <> []) segments).
  { unfold segments. rewrite parse_passes_before.
    pose proof (before_leftover_inv (lower suffix)) as [Hseg _ _ _ _].
    assert (Hold : Forall (fun seg : str => seg <> [])
                     (segments_rev (before_leftover (lower suffix)))).
    { eapply Forall_impl; [exact Hseg|]. apply registered_nonempty. }
    destruct (cur (before_leftover (lower suffix))) as [|c r] eqn:Ecur.
    - cbn [truthy]. by apply Forall_rev.
    - cbn [truthy keep_leftover segments_rev]. apply Forall_rev.
      apply Forall_app. split; [exact Hold|]. rewrite Ecur.
      by constructor. }
  split; [exact Hne|]. split.
  - rewrite <- Hsurf. by apply concat_nonempty_length.
  - split.
    + intros Hnil. by rewrite <- Hsurf, Hnil.
    + intros Hnil. rewrite Hnil in Hsurf.
      destruct Hne as [|seg segs Hseg _]; [done|].
      simpl in Hsurf. destruct seg; [done | discriminate Hsurf].
Qed.

(** X5.  The three feature sets keep to their vocabularies, which are
    apart from each other.  [ud] holds tags of the case, buffer, plural
    and possessive tables only: the seven [Case=] tags, [Number=Plur],
    [Poss=Yes], [Person[psor]=1], [2] and [3], [Number[psor]=Sing] and
    [Plur].  [deriv] holds the five [Deriv=] tags and the two
    [DerivPOS=] tags of the derivational table and the leftover marker.
    [amb] holds the one ambiguity marker.  A derivation tag never comes
    without the part-of-speech tag the table pairs it with. *)
Theorem parse_feature_sets (suffix : str) :
  let '(_, ud_feats, deriv, amb) := _parse_tr_suffixes_full suffix in
  ud_feats ⊆ UD_TAGS
  /\ deriv ⊆ DERIV_TAGS ∪ {["Unparsed=Leftover"]}
  /\ amb ⊆ {["Amb=P3sg_or_Acc"]}
  /\ ud_feats ## deriv /\ ud_feats ## amb /\ deriv ## amb
  /\ (forall e dtag dpos,
        In (e, (dtag, dpos)) DERIV_SUFFIXES ->
        dtag ∈ deriv -> dpos ∈ deriv)
  /\ (forall tag, tag ∈ ud_feats ->
        In tag ["Case=Abl"; "Case=Loc"; "Case=Gen"; "Case=Ins"; "Case=Equ";
                "Case=Acc"; "Case=Dat"; "Number=Plur"; "Poss=Yes";
                "Person[psor]=1"; "Person[psor]=2"; "Person[psor]=3";
                "Number[psor]=Sing"; "Number[psor]=Plur"])
  /\ (forall tag, tag ∈ deriv ->
        In tag ["Deriv=LIK"; "Deriv=SAL"; "Deriv=LI"; "Deriv=SIZ";
                "Deriv=CI"; "DerivPOS=NOUN"; "DerivPOS=ADJ";
                "Unparsed=Leftover"])
  /\ (forall tag, tag ∈ amb -> tag = "Amb=P3sg_or_Acc").
Proof.
  unfold _parse_tr_suffixes_full. rewrite parse_passes_before.
  pose proof (before_leftover_inv (lower suffix))
    as [_ Hud Hder Hamb Hpair].
  destruct tag_vocabularies_apart as (Hd1 & Hd2 & Hd3 & Hd4).
  apply bool_decide_eq_true in Hd1, Hd2, Hd3, Hd4.
  set (st := before_leftover (lower suffix)) in *.
  assert (Hfinal : exists d, d ⊆ DERIV_TAGS ∪ {["Unparsed=Leftover"]}
            /\ deriv st ⊆ d /\ d ⊆ deriv st ∪ {["Unparsed=Leftover"]}
            /\ (if truthy (cur st) then keep_leftover st else st)
               = PState (cur st)
                   (segments_rev (if truthy (cur st)
                                  then keep_leftover st else st))
                   (ud st) d (amb st)).
  { destruct (truthy (cur st)).
    - exists (deriv st ∪ {["Unparsed=Leftover"]}).
      split; [by apply union_mono_r|]. split; [apply union_subseteq_l|].
      split; [done|]. reflexivity.
    - exists (deriv st). split; [by apply union_subseteq_l'|].
      split; [done|]. split; [apply union_subseteq_l|]. by destruct st. }
  destruct Hfinal as (d & Hd & Hsub & Hsup & ->).
  cbn [ud deriv amb].
  split; [exact Hud|]. split; [exact Hd|]. split; [exact Hamb|].
  assert (Hamb1 : forall x, x ∈ amb st -> x = "Amb=P3sg_or_Acc").
  { intros x Hx. apply Hamb in Hx. by apply elem_of_singleton in Hx. }
  split.
  { apply elem_of_disjoint. intros x Hx1 Hx2.
    apply (proj1 (elem_of_disjoint _ _) Hd1 x); [by apply Hud | by apply Hd]. }
  split.
  { apply elem_of_disjoint. intros x Hx1 Hx2.
    apply Hamb1 in Hx2. subst x. apply Hd2. by apply Hud. }
  split.
  { apply elem_of_disjoint. intros x Hx1 Hx2.
    apply Hamb1 in Hx2. subst x. apply Hd3. by apply Hd. }
  split.
  { intros e dtag dpos Hin Hdtag. apply Hsub.
    apply (Hpair e dtag dpos Hin).
    apply Hsup in Hdtag. apply elem_of_union in Hdtag as [Hdtag|Hdtag];
      [exact Hdtag|].
    apply elem_of_singleton in Hdtag. subst dtag. exfalso.
    pose proof deriv_table_ok_raw as Hok. unfold deriv_table_ok in Hok.
    rewrite forallb_forall in Hok. specialize (Hok _ Hin).
    cbn [fst snd] in Hok.
    apply andb_true_iff in Hok as [Hok _].
    apply andb_true_iff in Hok as [Hok _].
    apply andb_true_iff in Hok as [_ Htag].
    apply bool_decide_eq_true in Htag. by apply Hd4. }
  split.
  { intros tag Htag. apply UD_TAGS_names. by apply Hud. }
  split; [|exact Hamb1].
  intros tag Htag. apply Hd in Htag.
  apply elem_of_union in Htag as [Htag|Htag].
  - apply DERIV_TAGS_names in Htag.
    change (In tag (["Deriv=LIK"; "Deriv=SAL"; "Deriv=LI"; "Deriv=SIZ";
                     "Deriv=CI"; "DerivPOS=NOUN"; "DerivPOS=ADJ"]
                    ++ ["Unparsed=Leftover"])).
    apply in_or_app. by left.
  - apply elem_of_singleton in Htag. subst tag.
    do 7 right. by left.
Qed.

(** X6.  Every segment is one of the registered suffixes, except the
    unparsed remainder: when the leftover marker is set, the remainder
    is the first segment, it is not empty and it ends with no
    derivational suffix; when it is not set, all segments are
    registered suffixes. *)
Theorem parse_segments_registered (suffix : str) :
  let '(segments, _, deriv, _) := _parse_tr_suffixes_full suffix in
  ("Unparsed=Leftover" ∉ deriv ->
   Forall (fun seg => In seg all_suffixes) segments)
  /\ ("Unparsed=Leftover" ∈ deriv ->
      exists rest tail,
        segments = rest :: tail /\ rest <> []
        /\ Forall (fun seg => In seg all_suffixes) tail
        /\ forall e, In e (map fst DERIV_SUFFIXES) ->
             endswith rest e = false).
Proof.
  unfold _parse_tr_suffixes_full. rewrite parse_passes_before.
  pose proof (before_leftover_inv (lower suffix))
    as [Hseg _ Hder _ _].
  pose proof (before_leftover_exit (lower suffix)) as Hexit.
  destruct tag_vocabularies_apart as (_ & _ & _ & Hd4).
  apply bool_decide_eq_true in Hd4.
  set (st := before_leftover (lower suffix)) in *.
  assert (Hreg : Forall (fun seg => In seg all_suffixes)
                   (rev (segments_rev st))).
  { apply Forall_rev. eapply Forall_impl; [exact Hseg|].
    intros seg. apply list_elem_of_In. }
  destruct (cur st) as [|c r] eqn:Ecur; cbn [truthy].
  - split; [by intros _|].
    intros Hin. exfalso. apply Hd4. by apply Hder.
  - cbn [keep_leftover segments_rev deriv].
    rewrite rev_app_distr. cbn [rev app]. split.
    + intros Hnot. exfalso. apply Hnot. apply elem_of_union_r.
      by apply elem_of_singleton.
    + intros _. exists (cur st), (rev (segments_rev st)).
      split; [done|]. split; [by rewrite Ecur|]. split; [exact Hreg|].
      intros e [[e' v] [<- Hin]]%in_map_iff.
      destruct Hexit as [Hnil|Hnone]; [by rewrite Hnil in Ecur|].
      unfold deriv_body in Hnone.
      destruct (first_match _ (cur st)) as [[e0 [dtag dpos]]|] eqn:Ef;
        [done|].
      unfold first_match in Ef.
      apply (find_none _ _ Ef (e', v)). by apply sorted_items_In.
Qed.

End ParserFacts.

(** ** The apostrophe split and what it leads to *)

Section ApostropheParts.
Context `{Unicode}.

Lemma re_split_apos_cons (acc s : str) : re_split_apos acc s <> [].
Proof.
  revert acc. induction s as [|x r IH]; intros acc; simpl; [done|].
  destruct (is_apos x); [done | apply IH].
Qed.

Lemma re_split_apos_one (acc s p : str) :
  re_split_apos acc s = [p] ->
  existsb is_apos s = false /\ p = acc ++ s.
Proof.
  revert acc. induction s as [|x r IH]; intros acc; simpl.
  - intros [= <-]. by rewrite app_nil_r.
  - destruct (is_apos x) eqn:Ex.
    + intros [= _ Hr]. by apply re_split_apos_cons in Hr.
    + intros [Hno ->]%IH. split; [done|]. by rewrite <- app_assoc.
Qed.

Lemma re_split_apos_pair (acc s p1 p2 : str) :
  re_split_apos acc s = [p1; p2] ->
  exists pre c,
    is_apos c = true /\ s = pre ++ c :: p2 /\ p1 = acc ++ pre
    /\ existsb is_apos pre = false /\ existsb is_apos p2 = false.
Proof.
  revert acc. induction s as [|x r IH]; intros acc; simpl; [done|].
  destruct (is_apos x) eqn:Ex.
  - intros [= <- Hr]. apply re_split_apos_one in Hr as [Hno ->].
    exists [], x. simpl. by rewrite app_nil_r.
  - intros (pre & c & Hc & -> & -> & Hpre & Hp2)%IH.
    exists (x :: pre), c. simpl. rewrite Ex, <- app_assoc. by simpl.
Qed.

(** What an accepted split tells about the token. *)
Lemma split_mixed_apostrophe_some (token base suff : str) :
  _split_mixed_apostrophe token = Some (base, suff) ->
  exists c,
    is_apos c = true /\ token = base ++ c :: suff
    /\ base <> [] /\ suff <> []
    /\ existsb is_apos base = false /\ existsb is_apos suff = false
    /\ (lower suff ∉ EN_CONTRACTIONS)
    /\ endswith (lower suff) (u "n't") = false.
Proof.
  unfold _split_mixed_apostrophe.
  destruct (existsb is_apos token); [|done].
  destruct (re_split_apos [] token) as [|p1 [|p2 [|p3 rest]]] eqn:Es;
    try done.
  apply re_split_apos_pair in Es as (pre & c & Hc & -> & -> & Hpre & Hp2).
  simpl app.
  destruct (truthy pre && truthy p2) eqn:Et; [|done].
  apply andb_true_iff in Et as [Ht1 Ht2].
  case_bool_decide as Hcontr; [done|]. cbn [orb].
  destruct (endswith (lower p2) (u "n't")) eqn:En; [done|].
  intros [= <- <-]. exists c.
  repeat split; try done; by intros ->.
Qed.

(** X7.  When [_split_mixed_apostrophe] returns a pair, the token is the
    base, one apostrophe and the suffix, in that order; neither part is
    empty nor holds an apostrophe, and the lower-cased suffix is no
    English contraction. *)
Theorem split_mixed_apostrophe_parts (token base suff : str) :
  _split_mixed_apostrophe token = Some (base, suff) ->
  exists c,
    is_apos c = true /\ token = base ++ c :: suff
    /\ base <> [] /\ suff <> []
    /\ existsb is_apos base = false /\ existsb is_apos suff = false
    /\ (lower suff ∉ EN_CONTRACTIONS)
    /\ endswith (lower suff) (u "n't") = false.
Proof. apply split_mixed_apostrophe_some. Qed.

(** X8.  After an English left part the parse test decides nothing: a
    split that [_split_mixed_apostrophe] accepts and whose suffix is not
    empty once lower-cased always gives MIXED, whatever the suffix is,
    because an unparsed remainder counts as a feature. *)
Theorem apostrophe_en_always_mixed (self : Annotator) (cfg : Config)
  (tok base suf : str) :
  _split_mixed_apostrophe tok = Some (base, suf) ->
  lower suf <> [] ->
  _choose_label self (lower (clean_token base)) cfg = "EN" ->
  apostrophe_path self tok cfg = Some "MIXED".
Proof.
  intros Hs Hlow Hen. unfold apostrophe_path. rewrite Hs.
  apply split_mixed_apostrophe_some in Hs
    as (c & _ & _ & Hb & Hf & _).
  assert (truthy base && truthy suf = true) as -> by (by destruct base, suf).
  by rewrite Hen, (has_feats_nonempty suf Hlow).
Qed.

End ApostropheParts.

(** ** What the no-apostrophe detector returns *)

Section DetectorResult.
Context `{Unicode}.
Variable self : Annotator.

Lemma try_suffix_facts (token tok_l : str) (cfg : Config) (suf : str)
  (base sfx : str) :
  try_suffix self token tok_l cfg suf = Some (base, sfx) ->
  (2 <= length suf)%nat /\ endswith tok_l suf = true
  /\ base = slice_to_neg (length suf) token
  /\ sfx = slice_from_neg (length suf) token
  /\ (2 <= length (lower (clean_token base)))%nat
  /\ (lower (clean_token base) ∈ english_freq_words self
      \/ (_ft_predict self (lower (clean_token base))).1 = "EN"
         /\ (FT_EN_MIN cfg <=? (_ft_predict self (lower (clean_token base))).2)%float
            = true)
  /\ (MIXED_STRICT cfg = true ->
      lower (clean_token base) ∉ turkish_freq_all self).
Proof.
  unfold try_suffix.
  destruct (length suf <? 2)%nat eqn:El; [done|].
  apply Nat.ltb_ge in El.
  destruct (endswith tok_l suf); [|done].
  set (base0 := slice_to_neg (length suf) token).
  set (bc := lower (clean_token base0)).
  destruct (length bc <? 2)%nat eqn:Eb; [done|].
  apply Nat.ltb_ge in Eb.
  destruct (negb _) eqn:Een; [done|]. apply negb_false_iff in Een.
  destruct (_ && negb _); [done|].
  destruct (negb (has_feats _)); [done|].
  destruct (MIXED_STRICT cfg && _) eqn:Estrict; [done|].
  intros [= <- <-]. fold bc.
  repeat split; try done.
  - destruct (decide (bc ∈ english_freq_words self)) as [Hin|Hin];
      [by left|]. right.
    rewrite bool_decide_false in Een by done.
    destruct (_ft_predict self bc) as [blang bprob]. cbn [fst snd].
    apply andb_true_iff in Een as [Hl Hp].
    by apply String.eqb_eq in Hl.
  - intros Hs. rewrite Hs in Estrict. cbn [andb] in Estrict.
    by apply bool_decide_eq_false in Estrict.
Qed.

(** X9.  A pair the no-apostrophe detector returns cuts the token in
    two: stem and suffix put together are the token.  The token itself
    is not a listed Turkish word; the stem, cleaned and lower-cased, has
    two characters or more and is English by the list or by the
    identifier; under [MIXED_STRICT] it is not a listed Turkish word
    either.  Both parts are non-empty (given that lower-casing the empty
    string gives the empty string), so the truth test of the caller on
    the pair never fails. *)
Theorem detect_mixed_result (token : str) (cfg : Config) (base sfx : str) :
  lower [] = [] ->
  _detect_mixed_no_apostrophe self token cfg = Some (base, sfx) ->
  base ++ sfx = token
  /\ base <> [] /\ sfx <> []
  /\ (lower token ∉ turkish_freq_all self)
  /\ (2 <= length (lower (clean_token base)))%nat
  /\ (lower (clean_token base) ∈ english_freq_words self
      \/ (_ft_predict self (lower (clean_token base))).1 = "EN"
         /\ (FT_EN_MIN cfg <=? (_ft_predict self (lower (clean_token base))).2)%float
            = true)
  /\ (MIXED_STRICT cfg = true ->
      lower (clean_token base) ∉ turkish_freq_all self).
Proof.
  intros Hnil. unfold _detect_mixed_no_apostrophe.
  case_bool_decide as Htr; [done|].
  intros (suf & _ & Htry)%scan_suffixes_some.
  apply try_suffix_facts in Htry
    as (Hlen & Hend & Hb & Hs & Hbc & Hen & Hstrict).
  assert (Htok : token <> []).
  { intros ->. rewrite Hnil in Hend. apply endswith_suffix in Hend.
    apply suffix_length in Hend. simpl in Hend. lia. }
  split; [subst; apply slice_neg_app|].
  split.
  { intros ->. simpl in Hbc. rewrite Hnil in Hbc. simpl in Hbc. lia. }
  split.
  { subst sfx. unfold slice_from_neg.
    destruct (length suf) as [|k] eqn:Ek; [lia|].
    intros Hd. apply (f_equal length) in Hd. rewrite length_drop in Hd.
    simpl in Hd. destruct token; [done|]. simpl in Hd. lia. }
  done.
Qed.

End DetectorResult.

(** ** The labels of the classifier *)

Section ClassifierLabels.
Context `{Unicode}.
Variable self : Annotator.

(** X10.  The classifier answers with one of the six labels. *)
Theorem classify_values (ne_map : gmap str string) (cfg : Config)
  (tok : str) :
  In (classify self ne_map cfg tok)
     ["OTHER"; "NE"; "MIXED"; "TR"; "EN"; "UID"].
Proof.
  unfold classify. destruct (is_other_token tok); [simpl; tauto|].
  case_bool_decide; [simpl; tauto|].
  destruct (apostrophe_path self tok cfg) as [lb|] eqn:Eap.
  - destruct (apostrophe_path_values _ _ _ _ Eap) as [-> | ->];
      simpl; tauto.
  - destruct (negb _ && _); [simpl; tauto|].
    destruct (choose_label_values self (lower (clean_token tok)) cfg)
      as [-> | [-> | ->]]; simpl; tauto.
Qed.

(** X11.  A token without apostrophe that the chooser takes for Turkish,
    or whose lower-case form is a listed Turkish word, is never MIXED:
    when it is neither OTHER nor NE its label is the chooser's. *)
Theorem turkish_token_keeps_label (ne_map : gmap str string) (cfg : Config)
  (tok : str) :
  existsb is_apos tok = false ->
  _choose_label self (lower (clean_token tok)) cfg = "TR"
  \/ lower tok ∈ turkish_freq_all self ->
  classify self ne_map cfg tok <> "MIXED"
  /\ (is_other_token tok = false -> ne_map !! tok = None ->
      classify self ne_map cfg tok
      = _choose_label self (lower (clean_token tok)) cfg).
Proof.
  intros Hno Htr.
  assert (Hpath : apostrophe_path self tok cfg = None).
  { unfold apostrophe_path, _split_mixed_apostrophe. by rewrite Hno. }
  assert (Hcore :
    (let label := _choose_label self (lower (clean_token tok)) cfg in
     if negb (String.eqb label "TR")
        && both_truthy (_detect_mixed_no_apostrophe self tok cfg)
     then "MIXED" else label)
    = _choose_label self (lower (clean_token tok)) cfg).
  { cbv zeta. destruct Htr as [-> | Hin]; [done|].
    unfold _detect_mixed_no_apostrophe. rewrite bool_decide_true by done.
    cbn [both_truthy]. by rewrite andb_false_r. }
  split.
  - unfold classify. rewrite Hpath.
    destruct (is_other_token tok); [done|].
    case_bool_decide; [done|]. cbv zeta in Hcore. rewrite Hcore.
    by destruct (choose_label_values self (lower (clean_token tok)) cfg)
      as [-> | [-> | ->]].
  - intros Ho Hne. unfold classify. rewrite Ho, Hne, Hpath.
    rewrite bool_decide_false by (by intros [??]). exact Hcore.
Qed.

End ClassifierLabels.

(** ** More on the sentence aggregator *)

Lemma existsb_Permutation {A} (p : A -> bool) (l l' : list A) :
  Permutation l l' -> existsb p l = existsb p l'.
Proof.
  induction 1 as [|x l l' _ IH|x y l|l l' l'' _ IH1 _ IH2]; simpl.
  - done.
  - by rewrite IH.
  - by destruct (p x), (p y).
  - by rewrite IH1.
Qed.

Lemma sum_ones_Permutation (tag : string) (l l' : list string) :
  Permutation l l' -> sum_ones tag l = sum_ones tag l'.
Proof.
  intros Hp. rewrite !sum_ones_count. f_equal.
  by apply Permutation_count_occ.
Qed.

(** X12.  The sentence decision depends on the labels as a multiset: any
    reordering of the tokens' labels gives the same Matrix and Embed. *)
Theorem decide_matrix_permutation (labels labels' : list string)
  (cfg : Config) :
  Permutation labels labels' ->
  _decide_matrix_embed labels cfg = _decide_matrix_embed labels' cfg.
Proof.
  intros Hp. unfold _decide_matrix_embed, score_tr, score_en.
  rewrite !(sum_ones_Permutation _ _ _ Hp).
  by rewrite !(existsb_Permutation _ _ _ Hp).
Qed.

Lemma sum_ones_absent (tag : string) (labels : list string) :
  ~ In tag labels -> sum_ones tag labels = 0%Z.
Proof.
  intros Hno. rewrite sum_ones_count.
  by rewrite (proj1 (count_occ_not_In string_dec labels tag) Hno).
Qed.

(** X13.  With the default weights, a sentence none of whose labels is
    TR, EN or MIXED (only numbers, names or unidentified words, or no
    token at all) is given Matrix TR and Embed ["-"]. *)
Theorem decide_matrix_nothing_scored (labels : list string) (cfg : Config) :
  MIXED_TR_WEIGHT cfg = MIXED_TR_WEIGHT DEFAULTS ->
  MIXED_EN_WEIGHT cfg = MIXED_EN_WEIGHT DEFAULTS ->
  ~ In "TR" labels -> ~ In "EN" labels -> ~ In "MIXED" labels ->
  _decide_matrix_embed labels cfg = ("TR", "-").
Proof.
  intros Hwt Hwe Htr Hen Hmx.
  unfold _decide_matrix_embed, score_tr, score_en.
  rewrite !sum_ones_absent by done. rewrite Hwt, Hwe.
  assert (existsb (fun lb => String.eqb lb "EN" || String.eqb lb "MIXED")
            labels = false) as Hex by (by apply existsb_two).
  change ((py_float 0 + MIXED_EN_WEIGHT DEFAULTS * py_float 0
           <=? py_float 0 + MIXED_TR_WEIGHT DEFAULTS * py_float 0)%float)
    with true.
  cbn [String.eqb Ascii.eqb Bool.eqb]. cbv iota. by rewrite Hex.
Qed.

(** ** The named-entity map *)

Section NeMap.
Context `{Unicode}.

Lemma build_ne_map_fold (pieces : gset str) (tokens : list str)
  (m : gmap str string) (tok : str) :
  fold_left
    (fun ne_map t =>
       if bool_decide (t ∈ pieces) then <[t := "NE"]> ne_map else ne_map)
    tokens m !! tok
  = if bool_decide (tok ∈ tokens /\ tok ∈ pieces) then Some "NE"
    else m !! tok.
Proof.
  revert m. induction tokens as [|t tokens IH]; intros m; cbn [fold_left].
  - rewrite bool_decide_false; [done|]. intros [Hin _].
    by apply elem_of_nil in Hin.
  - rewrite IH. case_bool_decide as H1.
    + rewrite bool_decide_true; [done|]. destruct H1 as [H1 H2].
      split; [by apply elem_of_cons; right | done].
    + case_bool_decide as H2.
      * destruct (decide (t = tok)) as [->|Hne].
        -- rewrite bool_decide_true; [by rewrite lookup_insert_eq|].
           split; [by apply elem_of_cons; left | done].
        -- rewrite bool_decide_false; [by rewrite lookup_insert_ne|].
           intros [[?|?]%elem_of_cons ?]; [congruence | tauto].
      * rewrite bool_decide_false; [done|].
        intros [[?|?]%elem_of_cons ?]; [congruence | tauto].
Qed.

(** X14.  A token is a key of the named-entity map exactly when it is a
    token of the line and equals a piece of some entity text; the value
    is then NE.  An entity of several words marks each of its words, and
    marks it wherever it stands in the line. *)
Theorem build_ne_map_lookup (ents line_tokens : list str) (tok : str) :
  (is_Some (_build_ne_map ents line_tokens !! tok) <->
   In tok line_tokens
   /\ exists text, In text ents
        /\ In tok (findall_tokens false (length text) text))
  /\ (forall v, _build_ne_map ents line_tokens !! tok = Some v -> v = "NE").
Proof.
  unfold _build_ne_map. rewrite build_ne_map_fold, lookup_empty.
  set (pieces := list_to_set _ : gset str).
  assert (Hp : tok ∈ pieces <->
    exists text, In text ents
      /\ In tok (findall_tokens false (length text) text)).
  { unfold pieces. rewrite elem_of_list_to_set, list_elem_of_In.
    rewrite filter_In, in_concat. split.
    - intros [(l & (text & <- & Hin)%in_map_iff & Htok) _]. by exists text.
    - intros (text & Hin & Htok). split.
      + exists (findall_tokens false (length text) text).
        split; [|done]. apply in_map_iff. by exists text.
      + apply findall_tokens_kept in Htok as [Hne _]. by destruct tok. }
  rewrite <- Hp, <- list_elem_of_In.
  case_bool_decide as Hd.
  - split; [|by intros v [= <-]].
    split; [by intros _ | by eexists].
  - split; [|done]. split; [by intros [??] | tauto].
Qed.

End NeMap.

(** ** The token loop and the orchestrator *)

(** Labels the token loop records for the sentence when per-token rows
    are on. *)
Definition recorded (lb : string) : bool :=
  String.eqb lb "NE" || String.eqb lb "MIXED" || String.eqb lb "TR"
  || String.eqb lb "EN".

(** A configuration with [FEATURE_LANGUAGE_PER_ITEM] set to [b]. *)
Definition with_per_item (b : bool) (cfg : Config) : Config := {|
  FEATURE_LANGUAGE_PER_ITEM := b;
  FEATURE_MATRIX_LANGUAGE := FEATURE_MATRIX_LANGUAGE cfg;
  FEATURE_EMBEDDED_LANGUAGE := FEATURE_EMBEDDED_LANGUAGE cfg;
  FEATURE_SENTENCE_ID := FEATURE_SENTENCE_ID cfg;
  NER_ENABLED := NER_ENABLED cfg;
  FT_EN_MIN := FT_EN_MIN cfg;
  FT_TR_MIN := FT_TR_MIN cfg;
  MIXED_STRICT := MIXED_STRICT cfg;
  EMIT_MIXED_SUFFIX := EMIT_MIXED_SUFFIX cfg;
  MIXED_TR_WEIGHT := MIXED_TR_WEIGHT cfg;
  MIXED_EN_WEIGHT := MIXED_EN_WEIGHT cfg;
  EMBED_MIN_COUNT := EMBED_MIN_COUNT cfg;
  EMBED_MIN_RATIO := EMBED_MIN_RATIO cfg;
|}.

(** An annotator with another named-entity recogniser. *)
Definition with_ner (self : Annotator) (recogniser : str -> list str)
  : Annotator := {|
  turkish_freq_top := turkish_freq_top self;
  turkish_freq_all := turkish_freq_all self;
  english_freq_words := english_freq_words self;
  _ft_predict := _ft_predict self;
  ner := recogniser;
|}.

(** A line [annotate] treats as a sentence separator. *)
Definition is_blank (raw : str) : bool :=
  negb (truthy (strip (rstrip_nl raw))).

(** The aggregator on the scored labels alone. *)
Lemma decide_filter_scored (labels : list string) (cfg : Config) :
  _decide_matrix_embed (List.filter scored labels) cfg
  = _decide_matrix_embed labels cfg.
Proof.
  unfold _decide_matrix_embed, score_tr, score_en.
  rewrite !sum_ones_scored by done.
  rewrite !existsb_filter_keep; [done|..].
  - intros x [Hx|Hx]%orb_true_iff; apply String.eqb_eq in Hx; by subst.
  - intros x [Hx|Hx]%orb_true_iff; apply String.eqb_eq in Hx; by subst.
Qed.

Section TokenLoop.
Context `{Unicode}.
Variable self : Annotator.

Lemma run_tokens_concat (ne_map : gmap str string) (cfg : Config)
  (tokens : list str) :
  run_tokens self ne_map cfg tokens
  = (concat (map (fun tok => (token_step self ne_map cfg tok).1) tokens),
     concat (map (fun tok => (token_step self ne_map cfg tok).2) tokens)).
Proof.
  unfold run_tokens.
  set (step := fun '(sent_rows, labels_in_sent) tok =>
    let '(rows, labels) := token_step self ne_map cfg tok in
    (sent_rows ++ rows, labels_in_sent ++ labels)).
  change (fold_left step tokens ([], [])
          = (concat (map (fun tok => (token_step self ne_map cfg tok).1)
                         tokens),
             concat (map (fun tok => (token_step self ne_map cfg tok).2)
                         tokens))).
  enough (Hgen : forall r0 l0,
    fold_left step tokens (r0, l0)
    = (r0 ++ concat (map (fun tok => (token_step self ne_map cfg tok).1)
                          tokens),
       l0 ++ concat (map (fun tok => (token_step self ne_map cfg tok).2)
                          tokens))) by apply (Hgen [] []).
  induction tokens as [|tok tokens IH]; intros r0 l0; cbn [fold_left map concat].
  - by rewrite !app_nil_r.
  - unfold step at 2.
    destruct (token_step self ne_map cfg tok) as [rows labels].
    cbn [fst snd]. rewrite IH. by rewrite <- !app_assoc.
Qed.

(** The rows and the labels of the loop over the tokens of a line. *)
Lemma run_tokens_rows (ne_map : gmap str string) (cfg : Config)
  (tokens : list str) :
  FEATURE_LANGUAGE_PER_ITEM cfg = true ->
  run_tokens self ne_map cfg tokens
  = (map (fun tok => row tok (classify self ne_map cfg tok)) tokens,
     List.filter recorded (map (classify self ne_map cfg) tokens)).
Proof.
  intros Hitem. rewrite run_tokens_concat. f_equal.
  - induction tokens as [|tok tokens IH]; cbn [map concat]; [done|].
    by rewrite (token_step_classify self ne_map cfg tok Hitem), IH.
  - induction tokens as [|tok tokens IH]; cbn [map concat List.filter];
      [done|].
    rewrite (token_step_classify self ne_map cfg tok Hitem), IH.
    cbn [snd]. unfold recorded.
    by destruct (_ || _).
Qed.

(** X15.  With per-token rows on, the token loop writes exactly one row
    per token, in order, each with the classifier's label, OTHER rows
    included; the labels it keeps for the sentence decision are those
    that are NE, MIXED, TR or EN. *)
Theorem run_tokens_per_item (ne_map : gmap str string) (cfg : Config)
  (tokens : list str) :
  FEATURE_LANGUAGE_PER_ITEM cfg = true ->
  run_tokens self ne_map cfg tokens
  = (map (fun tok => row tok (classify self ne_map cfg tok)) tokens,
     List.filter recorded (map (classify self ne_map cfg) tokens)).
Proof. apply run_tokens_rows. Qed.

Lemma choose_label_per_item (b : bool) (t : str) (cfg : Config) :
  _choose_label self t (with_per_item b cfg) = _choose_label self t cfg.
Proof. reflexivity. Qed.

Lemma scan_suffixes_per_item (b : bool) (token tok_l : str) (cfg : Config)
  (cands : list str) :
  scan_suffixes self token tok_l (with_per_item b cfg) cands
  = scan_suffixes self token tok_l cfg cands.
Proof.
  induction cands as [|suf cands IH]; cbn [scan_suffixes]; [done|].
  rewrite IH.
  change (try_suffix self token tok_l (with_per_item b cfg) suf)
    with (try_suffix self token tok_l cfg suf).
  reflexivity.
Qed.

Lemma detect_per_item (b : bool) (token : str) (cfg : Config) :
  _detect_mixed_no_apostrophe self token (with_per_item b cfg)
  = _detect_mixed_no_apostrophe self token cfg.
Proof.
  unfold _detect_mixed_no_apostrophe. by rewrite scan_suffixes_per_item.
Qed.

Lemma apostrophe_path_per_item (b : bool) (tok : str) (cfg : Config) :
  apostrophe_path self tok (with_per_item b cfg)
  = apostrophe_path self tok cfg.
Proof. reflexivity. Qed.

Lemma token_step_silent (ne_map : gmap str string) (cfg : Config)
  (tok : str) :
  apostrophe_path self tok cfg <> Some "TR" ->
  token_step self ne_map (with_per_item false cfg) tok
  = ([], List.filter scored
           (token_step self ne_map (with_per_item true cfg) tok).2).
Proof.
  intros Hap. unfold token_step.
  change (FEATURE_LANGUAGE_PER_ITEM (with_per_item false cfg)) with false.
  change (FEATURE_LANGUAGE_PER_ITEM (with_per_item true cfg)) with true.
  cbn [negb].
  rewrite !detect_per_item, !choose_label_per_item, apostrophe_path_per_item.
  destruct (is_other_token tok); [done|].
  case_bool_decide; [done|].
  set (label := _choose_label self (lower (clean_token tok)) cfg).
  set (det := both_truthy (_detect_mixed_no_apostrophe self tok cfg)).
  assert (Hrest :
    (if negb (String.eqb label "TR") && det
     then (@nil str, ["MIXED"])
     else if String.eqb label "TR" || String.eqb label "EN"
          then ([], [label]) else ([], []))
    = ([], List.filter scored
             (if negb (String.eqb label "TR") && det
              then ([row tok "MIXED"], ["MIXED"])
              else ([row tok label],
                    if String.eqb label "TR" || String.eqb label "EN"
                       || String.eqb label "MIXED"
                    then [label] else [])).2)).
  { destruct (negb (String.eqb label "TR") && det); [done|].
    unfold label.
    by destruct (choose_label_values self (lower (clean_token tok)) cfg)
      as [-> | [-> | ->]]. }
  revert Hap. unfold apostrophe_path.
  destruct (_split_mixed_apostrophe tok) as [[base suf]|];
    [|intros _; exact Hrest].
  set (base_label := _choose_label self (lower (clean_token base)) cfg).
  change (_choose_label self (lower (clean_token base))
            (with_per_item false cfg)) with base_label.
  destruct (truthy base && truthy suf); cbn [andb];
    [|intros _; exact Hrest].
  destruct (String.eqb base_label "EN"
            && has_feats (_parse_tr_suffixes_full suf)); [done|].
  destruct (String.eqb base_label "TR"); [done|].
  intros _. exact Hrest.
Qed.

(** X16.  Turning per-token rows off writes no token row and, as long as
    no token takes the branch "apostrophe with a Turkish left part",
    leaves the sentence decision as it is: the labels recorded are then
    the scored labels of the other mode.  (That branch exists in the
    per-token mode only, and with it the two modes can disagree on the
    Matrix language.) *)
Theorem per_item_off_same_decision (ne_map : gmap str string)
  (cfg : Config) (tokens : list str) :
  Forall (fun tok => apostrophe_path self tok cfg <> Some "TR") tokens ->
  (run_tokens self ne_map (with_per_item false cfg) tokens).1 = []
  /\ (run_tokens self ne_map (with_per_item false cfg) tokens).2
     = List.filter scored
         (run_tokens self ne_map (with_per_item true cfg) tokens).2
  /\ _decide_matrix_embed
       (run_tokens self ne_map (with_per_item false cfg) tokens).2 cfg
     = _decide_matrix_embed
         (run_tokens self ne_map (with_per_item true cfg) tokens).2 cfg.
Proof.
  intros Hall. rewrite !run_tokens_concat. cbn [fst snd].
  assert (H1 : concat (map (fun tok =>
      (token_step self ne_map (with_per_item false cfg) tok).1) tokens)
      = []).
  { induction Hall as [|tok tokens Htok _ IH]; cbn [map concat]; [done|].
    rewrite (token_step_silent ne_map cfg tok Htok). cbn [fst app].
    exact IH. }
  assert (H2 : concat (map (fun tok =>
      (token_step self ne_map (with_per_item false cfg) tok).2) tokens)
      = List.filter scored (concat (map (fun tok =>
          (token_step self ne_map (with_per_item true cfg) tok).2) tokens))).
  { clear H1.
    induction Hall as [|tok tokens Htok _ IH]; cbn [map concat]; [done|].
    rewrite (token_step_silent ne_map cfg tok Htok). cbn [snd].
    by rewrite IH, List.filter_app. }
  split; [exact H1|]. split; [exact H2|].
  rewrite H2. apply decide_filter_scored.
Qed.

End TokenLoop.

Section Orchestrator.
Context `{Unicode}.
Variable self : Annotator.

(** X17.  The output for a list of lines is the output for a first part
    followed by the output for the rest, numbered on from the non-blank
    lines of the first part: sentences are numbered consecutively, blank
    lines do not count, and the block of a line depends on nothing but
    the line and its number. *)
Theorem annotate_lines_app (cfg : Config) (lines1 lines2 : list str)
  (sent_idx : N) :
  annotate_lines self cfg (lines1 ++ lines2) sent_idx
  = annotate_lines self cfg lines1 sent_idx
    ++ annotate_lines self cfg lines2
         (sent_idx
          + N.of_nat (length (List.filter (fun raw => negb (is_blank raw))
                                          lines1)))%N.
Proof.
  revert sent_idx. induction lines1 as [|raw rest IH]; intros sent_idx.
  - cbn [app annotate_lines List.filter length].
    change (N.of_nat 0) with 0%N. by rewrite N.add_0_r.
  - cbn [app annotate_lines List.filter]. unfold is_blank at 1.
    destruct (negb (truthy (strip (rstrip_nl raw)))) eqn:Eb; cbn [negb].
    + rewrite IH. reflexivity.
    + rewrite IH.
      destruct (run_tokens self _ cfg (tokenize (rstrip_nl raw)))
        as [sent_rows labels_in_sent].
      destruct (_decide_matrix_embed labels_in_sent cfg) as [matrix embed].
      rewrite <- !app_assoc.
      set (n := length (List.filter (fun raw0 => negb (is_blank raw0)) rest)).
      replace (sent_idx + N.of_nat (length (raw :: List.filter
                 (fun raw0 => negb (is_blank raw0)) rest)))%N
        with (sent_idx + 1 + N.of_nat n)%N by (cbn [length]; lia).
      reflexivity.
Qed.

Lemma run_tokens_with_ner (recogniser : str -> list str)
  (ne_map : gmap str string) (cfg : Config) (tokens : list str) :
  run_tokens (with_ner self recogniser) ne_map cfg tokens
  = run_tokens self ne_map cfg tokens.
Proof.
  rewrite !run_tokens_concat.
  assert (Hstep : forall tok,
    token_step (with_ner self recogniser) ne_map cfg tok
    = token_step self ne_map cfg tok).
  { intros tok. unfold token_step.
    assert (Hdet : _detect_mixed_no_apostrophe (with_ner self recogniser)
                     tok cfg
                   = _detect_mixed_no_apostrophe self tok cfg).
    { unfold _detect_mixed_no_apostrophe.
      change (turkish_freq_all (with_ner self recogniser))
        with (turkish_freq_all self).
      destruct (bool_decide _); [done|].
      generalize sorted_suffixes as cands.
      induction cands as [|suf cands IH]; cbn [scan_suffixes]; [done|].
      rewrite IH.
      change (try_suffix (with_ner self recogniser) tok (lower tok) cfg suf)
        with (try_suffix self tok (lower tok) cfg suf).
      reflexivity. }
    rewrite Hdet. reflexivity. }
  f_equal; f_equal; apply map_ext; intros tok; by rewrite Hstep.
Qed.

(** X18.  With [NER_ENABLED] off the recogniser is never consulted: the
    output is the same for every recogniser the annotator may hold, and
    no token is looked up in a named-entity map other than the empty
    one. *)
Theorem annotate_ner_disabled (recogniser : str -> list str) (text : str)
  (user_cfg : option UserCfg) :
  set_NER_ENABLED (settings user_cfg) = Some false ->
  annotate (with_ner self recogniser) text user_cfg
  = annotate self text user_cfg.
Proof.
  intros Hoff. unfold annotate.
  set (cfg := match user_cfg with
              | Some user => cfg_update DEFAULTS user
              | None => DEFAULTS
              end).
  assert (Hner : NER_ENABLED cfg = false).
  { unfold cfg. destruct user_cfg as [user|]; [|discriminate Hoff].
    change (set_NER_ENABLED user = Some false) in Hoff.
    unfold cfg_update. cbn [NER_ENABLED]. by rewrite Hoff. }
  clearbody cfg. f_equal. generalize 0%N as sent_idx.
  induction (splitlines text) as [|raw rest IH]; intros sent_idx;
    cbn [annotate_lines]; [done|].
  rewrite !IH, Hner, run_tokens_with_ner. reflexivity.
Qed.

End Orchestrator.

(** ** The frequency sets [__init__] builds *)

Section LoadingFacts.
Context `{Unicode}.

(** The word a line of a list contributes. *)
Definition line_word (line : str) (w : str) : Prop :=
  exists part, first_part line = Some part /\ lower part = w.

Lemma load_tr_all (i : nat) (lines : list str) (top all : gset str)
  (w : str) :
  w ∈ (load_tr i lines top all).2
  <-> w ∈ all \/ exists line, In line lines /\ line_word line w.
Proof.
  revert i top all. induction lines as [|line rest IH]; intros i top all.
  - simpl. split; [by left | intros [?|(? & [] & _)]; done].
  - cbn [load_tr]. destruct (first_part line) as [part|] eqn:Ep.
    + cbv zeta. rewrite IH, elem_of_union, elem_of_singleton. split.
      * intros [[Hw| ->]|(l & Hin & Hl)]; [by left| |].
        -- right. exists line. split; [by left | by exists part].
        -- right. exists l. split; [by right | done].
      * intros [Hw|(l & [<-|Hin] & Hl)]; [by left; left| |].
        -- destruct Hl as (part' & Hp' & <-). left. right. congruence.
        -- right. by exists l.
    + rewrite IH. split.
      * intros [Hw|(l & Hin & Hl)]; [by left|].
        right. exists l. split; [by right | done].
      * intros [Hw|(l & [<-|Hin] & Hl)]; [by left| |].
        -- destruct Hl as (part' & Hp' & _). congruence.
        -- right. by exists l.
Qed.

Lemma load_tr_top (i : nat) (lines : list str) (top all : gset str)
  (w : str) :
  w ∈ (load_tr i lines top all).1
  <-> w ∈ top
      \/ exists j line, (i + j < 1000)%nat /\ lines !! j = Some line
                        /\ line_word line w.
Proof.
  revert i top all. induction lines as [|line rest IH]; intros i top all.
  - simpl. split; [by left | intros [?|(j & l & _ & Hl & _)]; done].
  - cbn [load_tr]. destruct (first_part line) as [part|] eqn:Ep.
    + cbv zeta. rewrite IH. split.
      * intros [Hw|(j & l & Hlt & Hl & Hw)].
        -- destruct (Nat.ltb_spec i 1000) as [Hi|Hi]; [|by left].
           apply elem_of_union in Hw as [Hw|Hw]; [by left|].
           apply elem_of_singleton in Hw as ->. right.
           exists 0%nat, line. split; [lia|]. split; [done|].
           by exists part.
        -- right. exists (S j), l. split; [lia | done].
      * intros [Hw|(j & l & Hlt & Hl & Hw)].
        -- left. destruct (i <? 1000)%nat; [|done].
           apply elem_of_union. by left.
        -- destruct j as [|j].
           ++ injection Hl as <-. destruct Hw as (part' & Hp' & <-).
              left. rewrite (proj2 (Nat.ltb_lt i 1000)) by lia.
              apply elem_of_union. right. apply elem_of_singleton.
              congruence.
           ++ right. exists j, l. split; [lia | done].
    + rewrite IH. split.
      * intros [Hw|(j & l & Hlt & Hl & Hw)]; [by left|].
        right. exists (S j), l. split; [lia | done].
      * intros [Hw|(j & l & Hlt & Hl & Hw)]; [by left|].
        destruct j as [|j].
        -- injection Hl as <-. destruct Hw as (part' & Hp' & _). congruence.
        -- right. exists j, l. split; [lia | done].
Qed.

Lemma load_en_words (lines : list str) (words : gset str) (w : str) :
  w ∈ load_en lines words
  <-> w ∈ words \/ exists line, In line lines /\ line_word line w.
Proof.
  revert words. induction lines as [|line rest IH]; intros words.
  - simpl. split; [by left | intros [?|(? & [] & _)]; done].
  - cbn [load_en]. destruct (first_part line) as [part|] eqn:Ep.
    + rewrite IH, elem_of_union, elem_of_singleton. split.
      * intros [[Hw| ->]|(l & Hin & Hl)]; [by left| |].
        -- right. exists line. split; [by left | by exists part].
        -- right. exists l. split; [by right | done].
      * intros [Hw|(l & [<-|Hin] & Hl)]; [by left; left| |].
        -- destruct Hl as (part' & Hp' & <-). left. right. congruence.
        -- right. by exists l.
    + rewrite IH. split.
      * intros [Hw|(l & Hin & Hl)]; [by left|].
        right. exists l. split; [by right | done].
      * intros [Hw|(l & [<-|Hin] & Hl)]; [by left| |].
        -- destruct Hl as (part' & Hp' & _). congruence.
        -- right. by exists l.
Qed.

(** X19.  The sets [__init__] builds: a word is in the full Turkish set
    when some line of the Turkish list starts with it, in the top set
    when one of the first thousand lines does (lines without a word
    count as lines), in the English set when some line of the English
    list starts with it, always in lower case; so the top set is part
    of the full set. *)
Theorem init_frequency_sets (freq_tr freq_en : list str)
  (ft : str -> string * float) (recogniser : str -> list str) :
  let self := __init__ freq_tr freq_en ft recogniser in
  turkish_freq_top self ⊆ turkish_freq_all self
  /\ (forall w, w ∈ turkish_freq_all self <->
        exists line, In line freq_tr /\ line_word line w)
  /\ (forall w, w ∈ turkish_freq_top self <->
        exists j line, (j < 1000)%nat /\ freq_tr !! j = Some line
                       /\ line_word line w)
  /\ (forall w, w ∈ english_freq_words self <->
        exists line, In line freq_en /\ line_word line w).
Proof.
  cbv zeta. unfold __init__.
  pose proof (load_tr_all 0 freq_tr ∅ ∅) as Hall.
  pose proof (load_tr_top 0 freq_tr ∅ ∅) as Htop.
  destruct (load_tr 0 freq_tr ∅ ∅) as [top all].
  cbn [fst snd turkish_freq_top turkish_freq_all english_freq_words] in *.
  assert (Hall' : forall w, w ∈ all <->
            exists line, In line freq_tr /\ line_word line w).
  { intros w. rewrite Hall. split; [|by right].
    intros [Hw|Hw]; [by apply not_elem_of_empty in Hw | done]. }
  assert (Htop' : forall w, w ∈ top <->
            exists j line, (j < 1000)%nat /\ freq_tr !! j = Some line
                           /\ line_word line w).
  { intros w. rewrite Htop. split; [|by right].
    intros [Hw|Hw]; [by apply not_elem_of_empty in Hw | done]. }
  split; [|split; [exact Hall'|split; [exact Htop'|]]].
  - intros w Hw. apply Htop' in Hw as (j & line & _ & Hl & Hw).
    apply Hall'. exists line. split; [|done].
    apply list_elem_of_In. by eapply list_elem_of_lookup_2.
  - intros w. rewrite load_en_words. split; [|by right].
    intros [Hw|Hw]; [by apply not_elem_of_empty in Hw | done].
Qed.

End LoadingFacts.

Section Block.
Context `{Unicode}.
Variable self : Annotator.

(** X20.  The block of one sentence, with per-token rows on: the
    SentenceID row if asked for, one row per token with the classifier's
    label, the MatrixLang row if asked for, the EmbedLang row if asked
    for (also when the Matrix row is not), and one empty row; Matrix and
    Embed are decided from the labels of the rows. *)
Theorem annotate_sentence_block (cfg : Config) (raw : str) (sent_idx : N) :
  is_blank raw = false ->
  FEATURE_LANGUAGE_PER_ITEM cfg = true ->
  let line := rstrip_nl raw in
  let tokens := tokenize line in
  let ne_map :=
    if NER_ENABLED cfg then _build_ne_map (ner self line) tokens else ∅ in
  let labels := map (classify self ne_map cfg) tokens in
  let decision := _decide_matrix_embed (List.filter recorded labels) cfg in
  annotate_lines self cfg [raw] sent_idx
  = (if FEATURE_SENTENCE_ID cfg
     then [row (u "SentenceID") (pretty (sent_idx + 1)%N)] else [])
    ++ map (fun tok => row tok (classify self ne_map cfg tok)) tokens
    ++ (if FEATURE_MATRIX_LANGUAGE cfg
        then [row (u "MatrixLang") decision.1] else [])
    ++ (if FEATURE_EMBEDDED_LANGUAGE cfg
        then [row (u "EmbedLang") decision.2] else [])
    ++ [[]].
Proof.
  intros Hblank Hitem. cbv zeta. cbn [annotate_lines].
  unfold is_blank in Hblank. rewrite Hblank.
  rewrite (run_tokens_rows self _ cfg _ Hitem).
  destruct (_decide_matrix_embed _ cfg) as [matrix embed]. cbn [fst snd].
  rewrite app_nil_r. unfold row.
  by destruct (FEATURE_MATRIX_LANGUAGE cfg), (FEATURE_EMBEDDED_LANGUAGE cfg).
Qed.

End Block.

(** * Examples

    The statements above, run on [demo] with the character database
    [latin]. *)

#[local] Existing Instance latin.

Ltac run := vm_compute; first [reflexivity | discriminate | tauto
                                | intuition discriminate].

(** The scenarios of the specification. *)
Example selfie_yi_parse :
  let '(segments, ud_feats, deriv, amb) := _parse_tr_suffixes_full (u "yi") in
  segments = [u "yi"] /\ ud_feats = {["Case=Acc"]} /\ deriv = ∅ /\ amb = ∅.
Proof. vm_compute. tauto. Qed.

Example kodland_other : is_other_token (u "#kodland") = true.
Proof. run. Qed.

Example kitabi_tr : classify demo ∅ DEFAULTS (u "kitabı") = "TR".
Proof. run. Qed.

Example annotate_demo :
  annotate demo (u "Ali selfie'yi ve meetingler 12 it's") None
  = u "SentenceID	1
Ali	NE
selfie'yi	MIXED
ve	TR
meetingler	MIXED
12	OTHER
it's	UID
MatrixLang	TR
EmbedLang	EN
".
Proof. run. Qed.



(** [ev'de]: [ev] is TR; with per-token rows on the label is TR, with
    them off the token is not recorded. *)
Example apostrophe_turkish_base :
  token_step demo ∅ DEFAULTS (u "ev'de") = ([row (u "ev'de") "TR"], ["TR"])
  /\ token_step demo ∅ (cfg_update DEFAULTS per_item_off) (u "ev'de")
     = ([], []).
Proof. run. Qed.

(** [it's]: the right part is the contraction [s]. *)
Lemma contraction_not_split_witness :
  _split_mixed_apostrophe (u "it's") = None
  /\ apostrophe_path demo (u "it's") DEFAULTS = None
  /\ (classify demo ∅ DEFAULTS (u "it's") = "MIXED" ->
      both_truthy (_detect_mixed_no_apostrophe demo (u "it's") DEFAULTS)
      = true).
Proof.
  apply (contraction_not_split demo ∅ DEFAULTS (u "it's") (u "it") (u "s"));
    run.
Defined.

(** [meetingler]: the English stem [meeting] with the plural [ler]. *)
Lemma detect_mixed_real_tag_witness :
  _detect_mixed_no_apostrophe demo (u "meetingler") DEFAULTS
  = Some (u "meeting", u "ler")
  /\ exists suf,
       In suf all_suffixes /\ (2 <= length suf)%nat
       /\ endswith (lower (u "meetingler")) suf = true
       /\ u "meeting" = slice_to_neg (length suf) (u "meetingler")
       /\ u "ler" = slice_from_neg (length suf) (u "meetingler")
       /\ let '(_, ud_feats, deriv, amb) := _parse_tr_suffixes_full suf in
          exists tag, tag <> "Unparsed=Leftover"
                      /\ (tag ∈ ud_feats \/ tag ∈ deriv \/ tag ∈ amb).
Proof.
  split; [run|].
  apply (detect_mixed_real_tag demo (u "meetingler") DEFAULTS).
  - apply fixed_entries. run.
  - run.
Defined.


(** Setting the three unread keys changes nothing. *)
Lemma annotate_ignores_unused_keys_witness :
  annotate demo (u "bir selfie'yi") (Some unread_keys_set)
  = annotate demo (u "bir selfie'yi") None.
Proof.
  apply (annotate_ignores_unused_keys demo (u "bir selfie'yi")
           (Some unread_keys_set) None).
  vm_compute. tauto.
Defined.

(** ** The further properties on [demo] *)

(** [selfie'yi] in a line: a run of word characters, one apostrophe and
    a further run. *)
Lemma tokenize_shape_witness : token_shape (u "selfie'yi").
Proof.
  apply (tokenize_shape (u "bir selfie'yi") (u "selfie'yi")). run.
Defined.

(** The hashtag [#kodland] reaches the classifier as [kodland], which no
    pattern of [is_other_token] matches. *)
Lemma tokenize_other_witness :
  In (u "kodland") (tokenize (u "bak #kodland 12"))
  /\ URL_RE_match (u "kodland") = false
  /\ MENTION_RE_match (u "kodland") = false
  /\ HASHTAG_RE_match (u "kodland") = false
  /\ NUMERIC_RE_match (u "kodland") = forallb is_digit (u "kodland")
  /\ is_other_token (u "kodland")
     = forallb is_digit (u "kodland") || EMOJI_RE_search (u "kodland")
       || nonword_fullmatch (u "kodland").
Proof.
  assert (Hin : In (u "kodland") (tokenize (u "bak #kodland 12"))) by run.
  split; [exact Hin|].
  apply (tokenize_other (u "bak #kodland 12") (u "kodland")); [|exact Hin].
  intros c Hc.
  repeat (destruct Hc as [<-|Hc]; [reflexivity|]). destruct Hc.
Defined.

(** [selfie'yi] splits into [selfie] and [yi]. *)
Lemma split_mixed_apostrophe_parts_witness :
  exists c,
    is_apos c = true /\ u "selfie'yi" = u "selfie" ++ c :: u "yi"
    /\ u "selfie" <> [] /\ u "yi" <> []
    /\ existsb is_apos (u "selfie") = false
    /\ existsb is_apos (u "yi") = false
    /\ (lower (u "yi") ∉ EN_CONTRACTIONS)
    /\ endswith (lower (u "yi")) (u "n't") = false.
Proof.
  apply (split_mixed_apostrophe_parts (u "selfie'yi") (u "selfie") (u "yi")).
  run.
Defined.

(** [selfie'xyz]: [xyz] is no Turkish suffix, and the label is MIXED all
    the same. *)
Lemma apostrophe_en_always_mixed_witness :
  apostrophe_path demo (u "selfie'xyz") DEFAULTS = Some "MIXED".
Proof.
  apply (apostrophe_en_always_mixed demo DEFAULTS
           (u "selfie'xyz") (u "selfie") (u "xyz")); run.
Defined.

(** [meetingler] again: what the returned pair tells. *)
Lemma detect_mixed_result_witness :
  u "meeting" ++ u "ler" = u "meetingler"
  /\ u "meeting" <> [] /\ u "ler" <> []
  /\ (lower (u "meetingler") ∉ turkish_freq_all demo)
  /\ (2 <= length (lower (clean_token (u "meeting"))))%nat
  /\ (lower (clean_token (u "meeting")) ∈ english_freq_words demo
      \/ (_ft_predict demo (lower (clean_token (u "meeting")))).1 = "EN"
         /\ (FT_EN_MIN DEFAULTS
             <=? (_ft_predict demo (lower (clean_token (u "meeting")))).2)%float
            = true)
  /\ (MIXED_STRICT DEFAULTS = true ->
      lower (clean_token (u "meeting")) ∉ turkish_freq_all demo).
Proof.
  apply (detect_mixed_result demo (u "meetingler") DEFAULTS
           (u "meeting") (u "ler")); run.
Defined.

(** [ev]: the chooser takes it for Turkish, and so does [classify]. *)
Lemma turkish_token_keeps_label_witness :
  classify demo ∅ DEFAULTS (u "ev") <> "MIXED"
  /\ (is_other_token (u "ev") = false ->
      (∅ : gmap str string) !! u "ev" = None ->
      classify demo ∅ DEFAULTS (u "ev")
      = _choose_label demo (lower (clean_token (u "ev"))) DEFAULTS).
Proof.
  apply (turkish_token_keeps_label demo ∅ DEFAULTS (u "ev")); [run|].
  left. run.
Defined.

(** The labels of a sentence in two orders. *)
Lemma decide_matrix_permutation_witness :
  _decide_matrix_embed ["TR"; "EN"; "EN"] DEFAULTS
  = _decide_matrix_embed ["EN"; "TR"; "EN"] DEFAULTS.
Proof.
  apply (decide_matrix_permutation ["TR"; "EN"; "EN"] ["EN"; "TR"; "EN"]).
  apply perm_swap.
Defined.

(** A sentence of a name and an unidentified word. *)
Lemma decide_matrix_nothing_scored_witness :
  _decide_matrix_embed ["NE"; "UID"] DEFAULTS = ("TR", "-").
Proof.
  apply (decide_matrix_nothing_scored ["NE"; "UID"] DEFAULTS);
    first [reflexivity | intros [E|[E|[]]]; discriminate E].
Defined.

(** The rows of [bir selfie'yi 12]. *)
Lemma run_tokens_per_item_witness :
  run_tokens demo ∅ DEFAULTS (tokenize (u "bir selfie'yi 12"))
  = (map (fun tok => row tok (classify demo ∅ DEFAULTS tok))
       (tokenize (u "bir selfie'yi 12")),
     List.filter recorded
       (map (classify demo ∅ DEFAULTS) (tokenize (u "bir selfie'yi 12")))).
Proof.
  apply (run_tokens_per_item demo ∅ DEFAULTS
           (tokenize (u "bir selfie'yi 12"))).
  reflexivity.
Defined.

(** [bir meetingler]: no apostrophe, so both modes decide alike. *)
Lemma per_item_off_same_decision_witness :
  (run_tokens demo ∅ (with_per_item false DEFAULTS)
     [u "bir"; u "meetingler"]).1 = []
  /\ (run_tokens demo ∅ (with_per_item false DEFAULTS)
        [u "bir"; u "meetingler"]).2
     = List.filter scored
         (run_tokens demo ∅ (with_per_item true DEFAULTS)
            [u "bir"; u "meetingler"]).2
  /\ _decide_matrix_embed
       (run_tokens demo ∅ (with_per_item false DEFAULTS)
          [u "bir"; u "meetingler"]).2 DEFAULTS
     = _decide_matrix_embed
         (run_tokens demo ∅ (with_per_item true DEFAULTS)
            [u "bir"; u "meetingler"]).2 DEFAULTS.
Proof.
  apply (per_item_off_same_decision demo ∅ DEFAULTS
           [u "bir"; u "meetingler"]).
  repeat constructor; run.
Defined.

(** [ev'de meeting]: the apostrophe token with the Turkish left part is
    recorded as TR with per-token rows on and not at all with them off,
    and the Matrix language changes from TR to EN. *)
Example per_item_modes_disagree :
  let tokens := tokenize (u "ev'de meeting") in
  _decide_matrix_embed
    (run_tokens demo ∅ (with_per_item true DEFAULTS) tokens).2 DEFAULTS
  = ("TR", "EN")
  /\ _decide_matrix_embed
       (run_tokens demo ∅ (with_per_item false DEFAULTS) tokens).2 DEFAULTS
     = ("EN", "-").
Proof. vm_compute. tauto. Qed.

(** With [NER_ENABLED] off the recogniser does not matter. *)
Lemma annotate_ner_disabled_witness :
  annotate (with_ner demo (fun _ => [u "selfie"])) (u "Ali selfie'yi")
    (Some ner_off)
  = annotate demo (u "Ali selfie'yi") (Some ner_off).
Proof.
  apply (annotate_ner_disabled demo (fun _ => [u "selfie"])
           (u "Ali selfie'yi") (Some ner_off)).
  reflexivity.
Defined.

(** The block of the sentence [bir selfie'yi]. *)
Lemma annotate_sentence_block_witness :
  annotate_lines demo DEFAULTS [u "bir selfie'yi"] 0
  = [row (u "SentenceID") "1"; row (u "bir") "TR";
     row (u "selfie'yi") "MIXED"; row (u "MatrixLang") "TR";
     row (u "EmbedLang") "EN"; []].
Proof.
  rewrite (annotate_sentence_block demo DEFAULTS (u "bir selfie'yi") 0);
    run.
Defined.

(** Loading a Turkish list of three lines, one of them blank: the words
    are lower-cased and only the first part of a line counts. *)
Example init_frequency_sets_example :
  let self := __init__ [u "Ve" ++ [10]; [10]; u " bir iki" ++ [10]]%N
                [u "The"] (_ft_predict demo) (ner demo) in
  bool_decide (u "ve" ∈ turkish_freq_all self) = true
  /\ bool_decide (u "bir" ∈ turkish_freq_top self) = true
  /\ bool_decide (u "iki" ∈ turkish_freq_all self) = false
  /\ bool_decide (u "the" ∈ english_freq_words self) = true.
Proof. vm_compute. tauto. Qed.
